(** * WoundWise "find care near you": the search and ranking pipeline

    A shallow embedding of the nearby-care code of [app/(tabs)/index.tsx]:
    the geodesy helpers, the three OpenStreetMap service wrappers
    ([geocodeOSM], [reverseGeocodeOSM], [searchNearbyCareOSM]) and the two
    search flows of the [Index] component, followed by the properties the
    specification states about them.  The embedding also covers the stage
    helpers of the same file (probabilities, wording, guidance, accents) and
    the handlers of the photo page; their properties close the file.

    Conventions of the embedding.
    - A JavaScript number is an IEEE 754 binary64 value: Rocq's primitive
      [float], whose operations are the correctly rounded ones.
    - [Math.sin], [Math.cos], [Math.asin] and [**] are "implementation
      approximated" in ECMAScript: the values the language fixes (zeros,
      infinities, NaN, arguments out of range) are written out, the others
      are taken from a [platform], as are the printing and parsing of
      numbers and the messages of the engine's errors.
    - A value read from a JSON body has type [value].  A string is a
      sequence of 8-bit code units; the few characters of the messages
      beyond Latin-1 are carried as their UTF-8 bytes.
    - [await] on a service is a read of the [world], which answers each call
      by rejecting or by resolving; every call is logged, in order.  A
      rejection rejects with any value: [catch] binds [e : any].
    - [useState] setters write the screen at once. *)

From Stdlib Require Import ZArith Lia Bool List String Ascii DecimalString.
From Stdlib Require Import Sorted Permutation.
From Stdlib Require Import Floats.
From Stdlib Require Import Reals Lra.
Import ListNotations.

#[local] Set Warnings "-register-all,-inexact-float".

Local Open Scope string_scope.
Local Open Scope list_scope.

(** ** JavaScript values *)

Inductive value : Type :=
| VUndefined
| VNull
| VBool (b : bool)
| VNum (x : float)
| VStr (s : string)
| VArr (items : list value)
| VObj (props : list (string * value)).

(** [v === null || v === undefined], the test behind [??] and [?.]. *)
Definition is_nullish (v : value) : bool :=
  match v with
  | VUndefined | VNull => true
  | _ => false
  end.

(** ToBoolean. *)
Definition truthy (v : value) : bool :=
  match v with
  | VUndefined | VNull => false
  | VBool b => b
  | VNum x => negb (PrimFloat.eqb x 0 || PrimFloat.is_nan x)
  | VStr s => negb (String.eqb s "")
  | VArr _ | VObj _ => true
  end.

(** [a ?? b] and [a || b]. *)
Definition nullish_or (a b : value) : value := if is_nullish a then b else a.
Definition js_or (a b : value) : value := if truthy a then a else b.

Fixpoint lookup (k : string) (props : list (string * value)) : value :=
  match props with
  | [] => VUndefined
  | (k', v) :: rest => if String.eqb k k' then v else lookup k rest
  end.

(** The length of an array or string as a number. *)
Definition num_of_nat (n : nat) : float :=
  PrimFloat.of_uint63 (Uint63.of_Z (Z.of_nat n)).

(** [v[k]] for a value [v] that is not nullish and a key [k] that is not an
    array index: an own property of an object, the [length] of an array or
    string, [undefined] otherwise (none of the keys the code reads is on a
    prototype). *)
Definition get (v : value) (k : string) : value :=
  match v with
  | VObj props => lookup k props
  | VArr items => if String.eqb k "length" then VNum (num_of_nat (List.length items)) else VUndefined
  | VStr s => if String.eqb k "length" then VNum (num_of_nat (String.length s)) else VUndefined
  | _ => VUndefined
  end.

(** [v?.k]. *)
Definition opt_get (v : value) (k : string) : value :=
  if is_nullish v then VUndefined else get v k.

(** [v[0]] for a value that is not nullish. *)
Definition elem0 (v : value) : value :=
  match v with
  | VArr items => hd VUndefined items
  | VStr (String c _) => VStr (String c "")
  | VObj props => lookup "0" props
  | _ => VUndefined
  end.

(** [a === b] against a string literal [b]. *)
Definition strict_eq_str (a : value) (b : string) : bool :=
  match a with
  | VStr s => String.eqb s b
  | _ => false
  end.

(** ** The platform: what ECMAScript leaves to the implementation *)

Inductive type_error_kind := ReadOfNullish | NotCallable.

Record platform : Type := {
  sin_impl : float -> float;
  cos_impl : float -> float;
  asin_impl : float -> float;
  square_impl : float -> float;
  number_to_string : float -> string;
  parse_float : value -> float;
  type_error_message : type_error_kind -> string
}.

(** The [TypeError] the engine throws. *)
Definition TypeError (P : platform) (k : type_error_kind) : value :=
  VObj [("name", VStr "TypeError"); ("message", VStr (type_error_message P k))].

Definition join (sep : string) (parts : list string) : string :=
  match parts with
  | [] => ""
  | p :: rest => fold_left (fun acc q => (acc ++ sep ++ q)%string) rest p
  end.

(** ToString, as a template literal and [Array.prototype.join] apply it. *)
Fixpoint to_string (P : platform) (v : value) : string :=
  match v with
  | VUndefined => "undefined"
  | VNull => "null"
  | VBool true => "true"
  | VBool false => "false"
  | VNum x => number_to_string P x
  | VStr s => s
  | VArr items =>
      join "," ((fix each (l : list value) : list string :=
                   match l with
                   | [] => []
                   | x :: rest => (if is_nullish x then "" else to_string P x) :: each rest
                   end) items)
  | VObj _ => "[object Object]"
  end.

(** ** Numbers and the [Math] object *)

(** The arithmetic the geodesy helpers use.  The code runs on binary64
    numbers; reading the same expressions over the real numbers gives the
    quantity the code approximates. *)
Class Arith (N : Type) : Type := {
  lit : float -> N;            (* a numeric literal of the source *)
  add : N -> N -> N;
  sub : N -> N -> N;
  mul : N -> N -> N;
  div : N -> N -> N;
  square : N -> N;             (* [x ** 2] *)
  Math_sin : N -> N;
  Math_cos : N -> N;
  Math_asin : N -> N;
  Math_sqrt : N -> N;
  Math_PI : N
}.

Module JSMath.
(** [Math.sin x]: NaN for NaN and the infinities, a zero for itself. *)
Definition sin (P : platform) (x : float) : float :=
  if PrimFloat.is_nan x || PrimFloat.is_infinity x then PrimFloat.nan
  else if PrimFloat.is_zero x then x
  else sin_impl P x.

(** [Math.cos x]: NaN for NaN and the infinities, 1 for a zero. *)
Definition cos (P : platform) (x : float) : float :=
  if PrimFloat.is_nan x || PrimFloat.is_infinity x then PrimFloat.nan
  else if PrimFloat.is_zero x then 1%float
  else cos_impl P x.

(** [Math.asin x]: NaN for NaN and outside [-1, 1], a zero for itself. *)
Definition asin (P : platform) (x : float) : float :=
  if PrimFloat.is_nan x then PrimFloat.nan
  else if PrimFloat.ltb 1 x || PrimFloat.ltb x (-1) then PrimFloat.nan
  else if PrimFloat.is_zero x then x
  else asin_impl P x.

(** [x ** 2] (Number::exponentiate with exponent 2): NaN for NaN,
    +Infinity for the infinities, +0 for the zeros. *)
Definition square (P : platform) (x : float) : float :=
  if PrimFloat.is_nan x then PrimFloat.nan
  else if PrimFloat.is_infinity x then PrimFloat.infinity
  else if PrimFloat.is_zero x then 0%float
  else square_impl P x.

(** [Math.PI]. *)
Definition PI : float := 3.141592653589793%float.
End JSMath.

(** Binary64 arithmetic on a platform: the arithmetic of the running code.
    [Math.sqrt] is the IEEE 754 square root. *)
Definition float_arith (P : platform) : Arith float := {|
  lit := fun x => x;
  add := PrimFloat.add;
  sub := PrimFloat.sub;
  mul := PrimFloat.mul;
  div := PrimFloat.div;
  square := JSMath.square P;
  Math_sin := JSMath.sin P;
  Math_cos := JSMath.cos P;
  Math_asin := JSMath.asin P;
  Math_sqrt := PrimFloat.sqrt;
  Math_PI := JSMath.PI
|}.



(** ** Geodesy helpers *)

Section Geodesy.
Context {N : Type} {A : Arith N}.

Definition toMiles (meters : N) : N :=
  div meters (lit 1609.344%float).

(** The local [toRad] of [haversineMeters]. *)
Definition toRad (x : N) : N :=
  div (mul x Math_PI) (lit 180%float).

Definition haversineMeters (lat1 lon1 lat2 lon2 : N) : N :=
  let R := lit 6371000%float in
  let dLat := toRad (sub lat2 lat1) in
  let dLon := toRad (sub lon2 lon1) in
  let a :=
    add (square (Math_sin (div dLat (lit 2%float))))
        (mul (mul (Math_cos (toRad lat1)) (Math_cos (toRad lat2)))
             (square (Math_sin (div dLon (lit 2%float))))) in
  mul (mul (lit 2%float) R) (Math_asin (Math_sqrt a)).
End Geodesy.

(** ** Results, calls and the screen state *)

(** [type CareResult]: [name] is whatever truthy tag value or fallback label
    the code picked; [address] and [distanceMiles] are optional fields. *)
Record CareResult : Type := {
  id : string;
  name : value;
  address : option string;
  lat : float;
  lon : float;
  distanceMiles : option float
}.

(** The outside calls a flow can await. *)
Inductive call : Type :=
| FetchGeocode (query : string)        (* nominatim /search, then res.json() *)
| FetchReverse (lat lon : float)       (* nominatim /reverse, then res.json() *)
| FetchOverpass (lat lon : float)      (* overpass interpreter, then res.json() *)
| RequestPermission                    (* Location.requestForegroundPermissionsAsync *)
| GetPosition.                         (* Location.getCurrentPositionAsync *)

(** How an awaited promise settles. *)
Inductive settled (A : Type) : Type :=
| Rejects (e : value)
| Resolves (a : A).
Arguments Rejects {A} e.
Arguments Resolves {A} a.

(** The collaborators: each answers a call by rejecting (network failure,
    body that does not parse) or by resolving (the parsed body). *)
Record world : Type := {
  nominatim_search : string -> settled value;
  nominatim_reverse : float -> float -> settled value;
  overpass : float -> float -> settled value;
  permission : settled string;
  position : settled (float * float)
}.

Inductive location_status := StatusUnknown | StatusGranted | StatusDenied | StatusError.

(** The [useState] cells of [Index] the search flows write. *)
Record screen : Type := {
  locationStatus : location_status;
  originLabel : value;
  careResults : list CareResult;
  careLoading : bool;
  careError : value;
  locationQuery : string
}.

Record machine : Type := {
  ui : screen;
  calls : list call       (* the calls awaited so far, oldest first *)
}.

(** ** Statements that may throw *)

Inductive outcome (A : Type) : Type :=
| Done (a : A)
| Thrown (e : value).
Arguments Done {A} a.
Arguments Thrown {A} e.

Definition M (A : Type) : Type := machine -> outcome A * machine.

Definition ret {A} (a : A) : M A := fun s => (Done a, s).
Definition throw {A} (e : value) : M A := fun s => (Thrown e, s).

Definition bind {A B} (m : M A) (k : A -> M B) : M B :=
  fun s =>
    match m s with
    | (Done a, s') => k a s'
    | (Thrown e, s') => (Thrown e, s')
    end.

Declare Scope js_scope.
Delimit Scope js_scope with js.
Notation "x <- m ;; k" := (bind m (fun x => k))
  (at level 61, m at next level, right associativity) : js_scope.
Notation "m ;; k" := (bind m (fun _ => k))
  (at level 61, right associativity) : js_scope.

(** [try { body } catch (e) { handler e }]. *)
Definition try_catch {A} (body : M A) (handler : value -> M A) : M A :=
  fun s =>
    match body s with
    | (Done a, s') => (Done a, s')
    | (Thrown e, s') => handler e s'
    end.

(** [try { body } finally { cleanup }], for a cleanup that does not throw or
    return. *)
Definition try_finally {A} (body : M A) (cleanup : M unit) : M A :=
  fun s =>
    let (r, s') := body s in
    (r, snd (cleanup s')).

(** [await] of a call: log it, then continue with the value or the thrown
    rejection. *)
Definition logged (c : call) (s : machine) : machine :=
  {| ui := ui s; calls := calls s ++ [c] |}.

Definition await {A} (c : call) (answer : settled A) : M A :=
  fun s =>
    match answer with
    | Resolves a => (Done a, logged c s)
    | Rejects e => (Thrown e, logged c s)
    end.

(** [v.k], which throws on [null] and [undefined]. *)
Definition getp (P : platform) (v : value) (k : string) : M value :=
  if is_nullish v then throw (TypeError P ReadOfNullish) else ret (get v k).

Fixpoint mapM {A B} (f : A -> M B) (l : list A) : M (list B) :=
  match l with
  | [] => ret []
  | x :: rest => (y <- f x ;; ys <- mapM f rest ;; ret (y :: ys))%js
  end.

Definition update (f : screen -> screen) : M unit :=
  fun s => (Done tt, {| ui := f (ui s); calls := calls s |}).

Definition setLocationStatus (v : location_status) : M unit :=
  update (fun u => {| locationStatus := v; originLabel := originLabel u;
                      careResults := careResults u; careLoading := careLoading u;
                      careError := careError u; locationQuery := locationQuery u |}).
Definition setOriginLabel (v : value) : M unit :=
  update (fun u => {| locationStatus := locationStatus u; originLabel := v;
                      careResults := careResults u; careLoading := careLoading u;
                      careError := careError u; locationQuery := locationQuery u |}).
Definition setCareResults (v : list CareResult) : M unit :=
  update (fun u => {| locationStatus := locationStatus u; originLabel := originLabel u;
                      careResults := v; careLoading := careLoading u;
                      careError := careError u; locationQuery := locationQuery u |}).
Definition setCareLoading (v : bool) : M unit :=
  update (fun u => {| locationStatus := locationStatus u; originLabel := originLabel u;
                      careResults := careResults u; careLoading := v;
                      careError := careError u; locationQuery := locationQuery u |}).
Definition setCareError (v : value) : M unit :=
  update (fun u => {| locationStatus := locationStatus u; originLabel := originLabel u;
                      careResults := careResults u; careLoading := careLoading u;
                      careError := v; locationQuery := locationQuery u |}).

(** ** The service wrappers *)

Record geocoded : Type := {
  geo_lat : float;
  geo_lon : float;
  displayName : value
}.

(** [geocodeOSM]: [None] is the [null] it returns for no match. *)
Definition geocodeOSM (P : platform) (W : world) (query : string) : M (option geocoded) :=
  (data <- await (FetchGeocode query) (nominatim_search W query) ;;
   if negb (truthy (opt_get data "length")) then ret None
   else
     la <- getp P (elem0 data) "lat" ;;
     lo <- getp P (elem0 data) "lon" ;;
     dn <- getp P (elem0 data) "display_name" ;;
     ret (Some {| geo_lat := parse_float P la;
                  geo_lon := parse_float P lo;
                  displayName := dn |}))%js.

Definition reverseGeocodeOSM (W : world) (lat lon : float) : M value :=
  try_catch
    (data <- await (FetchReverse lat lon) (nominatim_reverse W lat lon) ;;
     ret (js_or (opt_get data "display_name") (VStr "Current location")))%js
    (fun _ => ret (VStr "Current location")).

Definition addr_keys : list string :=
  ["addr:housenumber"; "addr:street"; "addr:city"; "addr:state"; "addr:postcode"].

(** The callback of [elements.map]: [None] is the [null] of a dropped
    element. *)
Definition normalize (P : platform) (lat lon : float) (el : value) : M (option CareResult) :=
  (tags0 <- getp P el "tags" ;;
   let tags := nullish_or tags0 (VObj []) in
   let name :=
     js_or (js_or (get tags "name") (get tags "name:en"))
           (if strict_eq_str (get tags "amenity") "hospital"
            then VStr "Hospital" else VStr "Clinic") in
   let centerLat := nullish_or (get el "lat") (opt_get (get el "center") "lat") in
   let centerLon := nullish_or (get el "lon") (opt_get (get el "center") "lon") in
   match centerLat, centerLon with
   | VNum clat, VNum clon =>
       let distM := haversineMeters (A := float_arith P) lat lon clat clon in
       let addrParts := filter truthy (map (get tags) addr_keys) in
       ret (Some {| id := (to_string P (get el "type") ++ "-" ++ to_string P (get el "id"))%string;
                    name := name;
                    address := match addrParts with
                               | [] => None
                               | _ => Some (join " " (map (to_string P) addrParts))
                               end;
                    lat := clat;
                    lon := clon;
                    distanceMiles := Some (toMiles (A := float_arith P) distM) |})
   | _, _ => ret None
   end)%js.

(** [.filter(Boolean)] on the mapped array. *)
Fixpoint keep {A} (l : list (option A)) : list A :=
  match l with
  | [] => []
  | Some a :: rest => a :: keep rest
  | None :: rest => keep rest
  end.

(** [a.distanceMiles ?? d]. *)
Definition distance_or (d : float) (a : CareResult) : float :=
  match distanceMiles a with
  | Some x => x
  | None => d
  end.

(** The comparator handed to [results.sort]. *)
Definition comparator (a b : CareResult) : float :=
  (distance_or 999 a - distance_or 999 b)%float.

(** [Array.prototype.sort] is stable and reads only the sign of the
    comparator (a NaN counts as 0): stable insertion. *)
Fixpoint insert {A} (cmp : A -> A -> float) (x : A) (l : list A) : list A :=
  match l with
  | [] => [x]
  | h :: t => if (0 <? cmp x h)%float then h :: insert cmp x t else x :: h :: t
  end.

Definition sort {A} (cmp : A -> A -> float) (l : list A) : list A :=
  fold_right (insert cmp) [] l.

Definition searchNearbyCareOSM (P : platform) (W : world) (lat lon : float) : M (list CareResult) :=
  (json <- await (FetchOverpass lat lon) (overpass W lat lon) ;;
   let elements := nullish_or (opt_get json "elements") (VArr []) in
   match elements with
   | VArr items =>
       mapped <- mapM (normalize P lat lon) items ;;
       let results := sort comparator (keep mapped) in
       ret (firstn 8 results)
   | _ => throw (TypeError P NotCallable)
   end)%js.

(** ** The search flows of [Index] *)

Definition NO_RESULTS : string := "No nearby hospitals/clinics found within ~10km.".
Definition CARE_FAILED : string := "Care search failed. Try again.".
Definition SEARCH_FAILED : string := "Search failed. Try again.".
Definition VALIDATION : string :=
  "Type a ZIP code or address first (or tap “Use my location”).".
Definition NOT_FOUND : string :=
  "Couldn’t find that location. Try a full address or ZIP + city.".
Definition PERMISSION_DENIED : string :=
  "Location permission denied. You can still enter a ZIP code/address below.".
Definition NO_LOCATION : string := "Could not access location.".

(** [e?.message ?? fallback] of a [catch] clause. *)
Definition message_or (fallback : string) (e : value) : value :=
  nullish_or (opt_get e "message") (VStr fallback).

(** The body of the [try] of [runCareSearchFromCoords]. *)
Definition careSearchBody (P : platform) (W : world) (lat lon : float) : M unit :=
  (setCareLoading true ;;
   setCareError (VStr "") ;;
   setCareResults [] ;;
   label <- reverseGeocodeOSM W lat lon ;;
   setOriginLabel label ;;
   results <- searchNearbyCareOSM P W lat lon ;;
   match results with
   | [] => setCareError (VStr NO_RESULTS)
   | _ => setCareResults results
   end)%js.

Definition runCareSearchFromCoords (P : platform) (W : world) (lat lon : float) : M unit :=
  try_finally
    (try_catch (careSearchBody P W lat lon)
               (fun e => setCareError (message_or CARE_FAILED e)))
    (setCareLoading false).

(** The device-location flow. *)
Definition requestAndUseLocation (P : platform) (W : world) : M unit :=
  try_catch
    (setCareError (VStr "") ;;
     setOriginLabel (VStr "") ;;
     setCareResults [] ;;
     status <- await RequestPermission (permission W) ;;
     if negb (String.eqb status "granted") then
       (setLocationStatus StatusDenied ;;
        setCareError (VStr PERMISSION_DENIED))
     else
       (setLocationStatus StatusGranted ;;
        pos <- await GetPosition (position W) ;;
        runCareSearchFromCoords P W (fst pos) (snd pos)))%js
    (fun e => (setLocationStatus StatusError ;;
               setCareError (message_or NO_LOCATION e))%js).

(** White space and line terminators of [String.prototype.trim] among the
    8-bit code units: TAB, LF, VT, FF, CR, SP, NBSP. *)
Definition is_space (c : ascii) : bool :=
  match nat_of_ascii c with
  | 9 | 10 | 11 | 12 | 13 | 32 | 160 => true
  | _ => false
  end.

Fixpoint trim_start (s : string) : string :=
  match s with
  | EmptyString => EmptyString
  | String c rest => if is_space c then trim_start rest else s
  end.

Fixpoint trim_end (s : string) : string :=
  match s with
  | EmptyString => EmptyString
  | String c rest =>
      match trim_end rest with
      | EmptyString => if is_space c then EmptyString else String c EmptyString
      | kept => String c kept
      end
  end.

Definition trim (s : string) : string := trim_end (trim_start s).

(** The body of the [try] of the typed-query flow, for the trimmed query. *)
Definition typedSearchBody (P : platform) (W : world) (q : string) : M unit :=
  (setCareLoading true ;;
   setCareError (VStr "") ;;
   setCareResults [] ;;
   setOriginLabel (VStr "") ;;
   geo <- geocodeOSM P W q ;;
   match geo with
   | None => setCareError (VStr NOT_FOUND)
   | Some g =>
       setOriginLabel (displayName g) ;;
       results <- searchNearbyCareOSM P W (geo_lat g) (geo_lon g) ;;
       match results with
       | [] => setCareError (VStr NO_RESULTS)
       | _ => setCareResults results
       end
   end)%js.

(** The typed-query flow: the [onPress] handler of the "Search this
    ZIP/address" button. *)
Definition searchTypedQuery (P : platform) (W : world) : M unit :=
  fun s =>
    let q := trim (locationQuery (ui s)) in
    if String.eqb q "" then setCareError (VStr VALIDATION) s
    else
      try_finally
        (try_catch (typedSearchBody P W q)
                   (fun e => setCareError (message_or SEARCH_FAILED e)))
        (setCareLoading false) s.

(** ** Vocabulary of the properties *)

(** The screen [Index] first renders, and the machine that starts on a
    screen before any call. *)
Definition idle : screen := {|
  locationStatus := StatusUnknown;
  originLabel := VStr "";
  careResults := [];
  careLoading := false;
  careError := VStr "";
  locationQuery := ""
|}.

Definition start (u : screen) : machine := {| ui := u; calls := [] |}.

(** What a statement returns or throws when run from the idle screen. *)
Definition outcome_of {A} (m : M A) : outcome A := fst (m (start idle)).

(** The label [reverseGeocodeOSM] makes of an answer of the service. *)
Definition label_of (answer : settled value) : value :=
  match answer with
  | Rejects _ => VStr "Current location"
  | Resolves data => js_or (opt_get data "display_name") (VStr "Current location")
  end.

(** The screen a flow leaves once the facility search, started under the
    label [label], has returned or thrown [o]; [fallback] is the text of the
    flow's [catch] clause. *)
Definition after_search
  (u : screen) (label : value) (fallback : string) (o : outcome (list CareResult)) : screen := {|
  locationStatus := locationStatus u;
  originLabel := label;
  careResults := match o with Done rs => rs | Thrown _ => [] end;
  careLoading := false;
  careError := match o with
               | Done [] => VStr NO_RESULTS
               | Done _ => VStr ""
               | Thrown e => message_or fallback e
               end;
  locationQuery := locationQuery u
|}.

(** The screen the typed-query flow leaves when the geocoder has returned
    [null] or thrown: no label, no results, the message [msg]. *)
Definition after_geocode (u : screen) (msg : value) : screen := {|
  locationStatus := locationStatus u;
  originLabel := VStr "";
  careResults := [];
  careLoading := false;
  careError := msg;
  locationQuery := locationQuery u
|}.

(** The sort key of a result: its distance, 999 when it has none. *)
Definition key (r : CareResult) : float := distance_or 999 r.

(** [a] may stand before [b] in an ascending list. *)
Definition key_le (a b : CareResult) : Prop := (key a <=? key b)%float = true.

(** Ascending by distance: every entry is at most every later one. *)
Definition ascending (rs : list CareResult) : Prop := StronglySorted key_le rs.

(** Every entry without a distance stands after every entry with one. *)
Definition unknown_last (rs : list CareResult) : Prop :=
  forall i j a b,
    nth_error rs i = Some a -> nth_error rs j = Some b ->
    distanceMiles a = None -> distanceMiles b <> None -> (j < i)%nat.

Definition has_nan_key (r : CareResult) : bool := PrimFloat.is_nan (key r).

(** The entries before the first one whose key is NaN. *)
Fixpoint clean_prefix (rs : list CareResult) : list CareResult :=
  match rs with
  | [] => []
  | r :: rest => if has_nan_key r then [] else r :: clean_prefix rest
  end.

(** The entries the elements of a body become, before they are sorted:
    the elements that are dropped or on which the callback throws leave
    none. *)
Definition candidates (P : platform) (olat olon : float) (items : list value) : list CareResult :=
  flat_map (fun el =>
              match outcome_of (normalize P olat olon el) with
              | Done (Some r) => [r]
              | _ => []
              end) items.

(** The identifier the code derives from a raw element. *)
Definition element_id (P : platform) (el : value) : string :=
  (to_string P (get el "type") ++ "-" ++ to_string P (get el "id"))%string.

(** The world [W] with another answer of the reverse geocoder. *)
Definition with_reverse (W : world) (answer : settled value) : world := {|
  nominatim_search := nominatim_search W;
  nominatim_reverse := fun _ _ => answer;
  overpass := overpass W;
  permission := permission W;
  position := position W
|}.

(** A screen with another [careError]. *)
Definition with_error (u : screen) (v : value) : screen := {|
  locationStatus := locationStatus u;
  originLabel := originLabel u;
  careResults := careResults u;
  careLoading := careLoading u;
  careError := v;
  locationQuery := locationQuery u
|}.


(** The order of binary64 values as integers: a value that is not NaN is
    ranked by its multiple of the smallest positive number, the infinities
    beyond every finite value. *)
Definition sf_rank (prec emax : Z) (x : spec_float) : Z :=
  match x with
  | S754_zero _ => 0
  | S754_nan => 0
  | S754_infinity s => cond_Zopp s (2 ^ (emax - SpecFloat.emin prec emax))
  | S754_finite s m e => cond_Zopp s (Zpos m * 2 ^ (e - SpecFloat.emin prec emax))
  end.

Definition sf_is_nan (x : spec_float) : bool :=
  match x with
  | S754_nan => true
  | _ => false
  end.

(** The sign [Array.prototype.sort] reads off a comparator result. *)
Definition sf_sgn (z : spec_float) : comparison :=
  match SFcompare z (S754_zero false) with
  | Some c => c
  | None => Eq
  end.

(** An infinity or a finite number of sign [s]. *)
Definition signed_nonzero (s : bool) (r : spec_float) : Prop :=
  r = S754_infinity s \/ exists m e, r = S754_finite s m e.

Definition rank (x : float) : Z := sf_rank FloatOps.prec FloatOps.emax (Prim2SF x).

(** The order of the keys, read on their ranks. *)
Definition rank_le (a b : CareResult) : Prop := (rank (key a) <= rank (key b))%Z.

(** ** A platform to run the model on

    First-order approximations near zero: [sin x = x], [cos x = 1],
    [asin x = x], [x ** 2 = x * x]; an integer prints in decimal. *)

Definition print_number (x : float) : string :=
  match Prim2SF x with
  | S754_zero _ => "0"
  | S754_nan => "NaN"
  | S754_infinity s => if s then "-Infinity" else "Infinity"
  | S754_finite s m e =>
      let n := if (0 <=? e)%Z then (Zpos m * 2 ^ e)%Z else (Zpos m / 2 ^ (- e))%Z in
      DecimalString.NilZero.string_of_int (Z.to_int (cond_Zopp s n))
  end.

Definition small_angle : platform := {|
  sin_impl := fun x => x;
  cos_impl := fun _ => 1%float;
  asin_impl := fun x => x;
  square_impl := fun x => (x * x)%float;
  number_to_string := print_number;
  parse_float := fun v => match v with VNum x => x | _ => PrimFloat.nan end;
  type_error_message := fun k =>
    match k with
    | ReadOfNullish => "Cannot read property of null or undefined"
    | NotCallable => "undefined is not a function"
    end
|}.

(** ** Sample inputs *)

(** A node of the point-of-interest service. *)
Definition node (idv : float) (la lo : float) (tags : list (string * value)) : value :=
  VObj [("type", VStr "node"); ("id", VNum idv); ("lat", VNum la); ("lon", VNum lo);
        ("tags", VObj tags)].

(** A world whose point-of-interest service answers [answer], whose
    geocoder finds nothing and whose reverse geocoder is down. *)
Definition world_of (answer : settled value) : world := {|
  nominatim_search := fun _ => Resolves (VArr []);
  nominatim_reverse := fun _ _ => Rejects (VObj [("message", VStr "Network request failed")]);
  overpass := fun _ _ => answer;
  permission := Resolves "granted";
  position := Resolves (40%float, (-75)%float)
|}.

Definition body_of (elements : list value) : value := VObj [("elements", VArr elements)].

(** Three hospitals north of (40, -75), not in order of distance. *)
Definition three_hospitals : world :=
  world_of (Resolves (body_of
    [node 1 40.01 (-75) [("amenity", VStr "hospital")];
     node 2 40.005 (-75) [("amenity", VStr "clinic"); ("name", VStr "Walk-in")];
     node 3 40.02 (-75) [("amenity", VStr "hospital"); ("addr:city", VStr "Trenton")]])).

Definition three_hospitals_found : list CareResult :=
  Eval vm_compute in
    match outcome_of (searchNearbyCareOSM small_angle three_hospitals 40 (-75)) with
    | Done rs => rs
    | Thrown _ => []
    end.

(** A body with a latitude beyond the binary64 range ([1e999] in the JSON
    text reads as [Infinity]) before a node at the origin. *)
Definition overflowing_latitude : world :=
  world_of (Resolves (body_of
    [node 1 PrimFloat.infinity 0 [("amenity", VStr "hospital")];
     node 2 0 0 [("amenity", VStr "hospital")]])).

(** A body that lists one node twice. *)
Definition repeated_node : world :=
  world_of (Resolves (body_of
    [node 7 0 0 [("amenity", VStr "clinic")];
     node 7 0 0 [("amenity", VStr "clinic")]])).

(** The idle screen with [q] typed in the query box. *)
Definition typed (q : string) : screen := {|
  locationStatus := StatusUnknown;
  originLabel := VStr "";
  careResults := [];
  careLoading := false;
  careError := VStr "";
  locationQuery := q
|}.


(** ** The "Clear results" button *)

Definition setLocationQuery (v : string) : M unit :=
  update (fun u => {| locationStatus := locationStatus u; originLabel := originLabel u;
                      careResults := careResults u; careLoading := careLoading u;
                      careError := careError u; locationQuery := v |}).

(** The [onPress] handler of the "Clear results" button. *)
Definition clearResults : M unit :=
  (setCareResults [] ;;
   setCareError (VStr "") ;;
   setOriginLabel (VStr "") ;;
   setLocationQuery "")%js.

(** The screen once a flow has cleared the message, the label and the
    results, with the location status [st]. *)
Definition reset_search (u : screen) (st : location_status) : screen := {|
  locationStatus := st;
  originLabel := VStr "";
  careResults := [];
  careLoading := careLoading u;
  careError := VStr "";
  locationQuery := locationQuery u
|}.

(** A binary64 value that is NaN or an infinity. *)
Definition sf_wild (v : spec_float) : bool :=
  match v with
  | S754_nan | S754_infinity _ => true
  | _ => false
  end.

(** ** Stages, probabilities and wording *)

Inductive StageLabel : Type :=
| StageI | StageII | StageIII | StageIV | Unstageable | DTPI.

(** The string each member of the union [StageLabel] is. *)
Definition stage_text (s : StageLabel) : string :=
  match s with
  | StageI => "Stage I"
  | StageII => "Stage II"
  | StageIII => "Stage III"
  | StageIV => "Stage IV"
  | Unstageable => "Unstageable"
  | DTPI => "DTPI"
  end.

Definition STAGES : list StageLabel :=
  [StageI; StageII; StageIII; StageIV; Unstageable; DTPI].

Definition PROTO_PRED_STAGE : StageLabel := StageIV.

Definition PROTO_PROBS (s : StageLabel) : float :=
  match s with
  | StageI => 0.01
  | StageII => 0.06
  | StageIII => 0.18
  | StageIV => 0.73
  | Unstageable => 0.0
  | DTPI => 0.02
  end%float.

(** [Math.round]: the nearest integer, the larger one at a tie; a value in
    (0, 0.5) gives +0 and one in [-0.5, -0) gives -0; a value that is not
    finite or is an integer is returned as it is. *)
Definition Math_round (x : float) : float :=
  match Prim2SF x with
  | S754_finite s m e =>
      if (0 <=? e)%Z then x
      else
        let n := ((cond_Zopp s (2 * Zpos m) + 2 ^ (- e)) / 2 ^ (1 - e))%Z in
        if (n =? 0)%Z then (if s then PrimFloat.neg_zero else PrimFloat.zero)
        else SF2Prim (binary_normalize FloatOps.prec FloatOps.emax n 0 false)
  | _ => x
  end.

Definition pct (p : float) : float := Math_round (p * 100)%float.

Record tier : Type := { label : string; hint : string }.

(** [a >= b] on numbers. *)
Definition geq (a b : float) : bool := PrimFloat.leb b a.

Definition confidenceTierFromTop (topP : float) : tier :=
  if geq topP 0.95 then {| label := "Almost certain"; hint := "≥95%" |}
  else if geq topP 0.85 then {| label := "Very likely"; hint := "85–94%" |}
  else if geq topP 0.7 then {| label := "Most likely"; hint := "70–84%" |}
  else if geq topP 0.5 then {| label := "Possible"; hint := "50–69%" |}
  else {| label := "Uncertain"; hint := "<50%" |}.

Definition likelihoodLabel (p : float) : string :=
  if geq p 0.85 then "Most likely"
  else if geq p 0.7 then "Likely"
  else if geq p 0.4 then "Possible"
  else if geq p 0.2 then "Unlikely"
  else "Highly unlikely".

Record guidance : Type := {
  title : string;
  bullets : list string;
  urgency : string
}.

Definition disclaimer : string :=
  "Note: This is general guidance only. For accurate diagnosis and treatment, consult a doctor or clinic.".

Definition getGuidance (stage : StageLabel) : guidance :=
  match stage with
  | StageI =>
      {| title := "Early pressure injury (mild)";
         bullets :=
           ["Relieve pressure immediately (reposition, offload).";
            "Keep skin clean and dry; avoid friction/shear.";
            "Use moisture barrier cream if needed.";
            "Use pressure-relieving surfaces (foam cushion/mattress).";
            "Hydrate + increase protein intake if possible.";
            "Monitor daily for worsening.";
            disclaimer];
         urgency := "Low–Moderate" |}
  | StageII =>
      {| title := "Partial-thickness skin loss";
         bullets :=
           ["Protect with an appropriate dressing.";
            "Reduce pressure and friction.";
            "Clean gently with saline or mild cleanser.";
            "Control moisture exposure (sweat/urine/stool).";
            "Nutrition support (protein, vitamin C, zinc).";
            "Seek care if worsening, pain, odor, or drainage increases.";
            disclaimer];
         urgency := "Moderate" |}
  | StageIII =>
      {| title := "Full-thickness skin loss";
         bullets :=
           ["Medical evaluation is strongly recommended.";
            "Strict pressure offloading needed.";
            "Monitor for infection (fever, odor, pus, spreading redness).";
            "Don’t delay—wound depth may progress quickly.";
            disclaimer];
         urgency := "High" |}
  | StageIV =>
      {| title := "Severe deep wound";
         bullets :=
           ["Urgent medical care recommended.";
            "High infection risk—avoid aggressive self-treatment.";
            "Protect the area and offload pressure immediately.";
            disclaimer];
         urgency := "Very High" |}
  | Unstageable =>
      {| title := "Depth cannot be determined";
         bullets :=
           ["Tissue may conceal severity.";
            "Professional wound assessment recommended.";
            "Do not remove tissue at home (bleeding/infection risk).";
            disclaimer];
         urgency := "High" |}
  | DTPI =>
      {| title := "Deep tissue pressure injury";
         bullets :=
           ["Can worsen rapidly—seek evaluation soon.";
            "Offload pressure immediately; monitor for darkening/blistering.";
            "If skin turns purple/black or pain increases, get urgent care.";
            disclaimer];
         urgency := "High" |}
  end.

Record accent : Type := { border : string; glow : string }.

Definition getStageAccent (stage : StageLabel) : accent :=
  match stage with
  | StageI => {| border := "#4ADE80"; glow := "rgba(74,222,128,0.25)" |}
  | StageII => {| border := "#60A5FA"; glow := "rgba(96,165,250,0.25)" |}
  | StageIII => {| border := "#FBBF24"; glow := "rgba(251,191,36,0.25)" |}
  | StageIV => {| border := "#FB7185"; glow := "rgba(251,113,133,0.25)" |}
  | Unstageable => {| border := "#A78BFA"; glow := "rgba(167,139,250,0.25)" |}
  | DTPI => {| border := "#22D3EE"; glow := "rgba(34,211,238,0.25)" |}
  end.

(** [ranked] of [Index]: the stages by falling probability, and
    [ranked[0]] ([None] is the [undefined] of an empty array). *)
Definition ranked (stageProbs : StageLabel -> float) : list StageLabel :=
  sort (fun a b => (stageProbs b - stageProbs a)%float) STAGES.

Definition topStage (stageProbs : StageLabel -> float) : option StageLabel :=
  hd_error (ranked stageProbs).

(** [Math.max] and [Math.min] of two numbers: NaN when one is NaN, and +0
    counts as larger than -0. *)
Definition Math_max (a b : float) : float :=
  if PrimFloat.is_nan a || PrimFloat.is_nan b then PrimFloat.nan
  else if PrimFloat.ltb a b then b
  else if PrimFloat.ltb b a then a
  else if PrimFloat.is_zero a && PrimFloat.get_sign a then b
  else a.

Definition Math_min (a b : float) : float :=
  if PrimFloat.is_nan a || PrimFloat.is_nan b then PrimFloat.nan
  else if PrimFloat.ltb a b then a
  else if PrimFloat.ltb b a then b
  else if PrimFloat.is_zero a && negb (PrimFloat.get_sign a) then b
  else a.

(** The width, in percent, of the bar under the prediction. *)
Definition barWidth (topP : float) : float :=
  Math_min 100 (Math_max 0 (topP * 100)%float).

(** [a] may stand before [b] in a list of falling probability. *)
Definition falling (stageProbs : StageLabel -> float) (a b : StageLabel) : Prop :=
  (stageProbs b <=? stageProbs a)%float = true.

(** How strong a wording of [confidenceTierFromTop] and of
    [likelihoodLabel] is. *)
Definition tier_level (l : string) : nat :=
  if String.eqb l "Almost certain" then 4
  else if String.eqb l "Very likely" then 3
  else if String.eqb l "Most likely" then 2
  else if String.eqb l "Possible" then 1
  else 0.

Definition likelihood_level (l : string) : nat :=
  if String.eqb l "Most likely" then 4
  else if String.eqb l "Likely" then 3
  else if String.eqb l "Possible" then 2
  else if String.eqb l "Unlikely" then 1
  else 0.

(** The colour a [#RRGGBB] string stands for. *)
Definition hex_digit (c : ascii) : option nat :=
  let n := nat_of_ascii c in
  if (48 <=? n)%nat && (n <=? 57)%nat then Some (n - 48)
  else if (65 <=? n)%nat && (n <=? 70)%nat then Some (n - 55)
  else None.

Definition hex_pair (a b : ascii) : option nat :=
  match hex_digit a, hex_digit b with
  | Some h, Some l => Some (16 * h + l)
  | _, _ => None
  end.

Definition rgb_of_hex (s : string) : option (nat * nat * nat) :=
  match s with
  | String "#" (String r1 (String r2 (String g1 (String g2 (String b1 (String b2 EmptyString)))))) =>
      match hex_pair r1 r2, hex_pair g1 g2, hex_pair b1 b2 with
      | Some r, Some g, Some b => Some (r, g, b)
      | _, _, _ => None
      end
  | _ => None
  end.

Definition decimal_of_nat (n : nat) : string := DecimalString.NilZero.string_of_uint (Nat.to_uint n).

Definition rgba_quarter (c : nat * nat * nat) : string :=
  let '(r, g, b) := c in
  "rgba(" ++ decimal_of_nat r ++ "," ++ decimal_of_nat g ++ "," ++ decimal_of_nat b ++ ",0.25)".

(** ** The photo page

    [Page] of the capture screen: one [useState] cell and three handlers.
    The picker's answers are read through the types of expo-image-picker:
    a permission response carries [granted]; a result is canceled or
    carries its assets, of which the code reads the [uri] of the first
    (reading it throws when there is no first asset).  A handler that
    throws is an [async] function whose promise rejects. *)

Inductive picker_result : Type :=
| Canceled
| Picked (uris : list string).   (* the [uri] of each asset, in order *)

Inductive picker_call : Type :=
| RequestCameraPermissions
| LaunchCamera
| RequestMediaLibraryPermissions
| LaunchImageLibrary.

(** What the device answers during one run of a handler. *)
Record device : Type := {
  camera_permission : settled bool;
  camera : settled picker_result;
  library_permission : settled bool;
  library : settled picker_result
}.

Record page : Type := {
  photoUri : option string;                (* [None] is [null] *)
  alerts : list (string * string);         (* title and message, oldest first *)
  picker_calls : list picker_call          (* oldest first *)
}.

Definition Alert_alert (title message : string) (s : page) : page :=
  {| photoUri := photoUri s; alerts := alerts s ++ [(title, message)];
     picker_calls := picker_calls s |}.

Definition setPhotoUri (uri : string) (s : page) : page :=
  {| photoUri := Some uri; alerts := alerts s; picker_calls := picker_calls s |}.

Definition asked (c : picker_call) (s : page) : page :=
  {| photoUri := photoUri s; alerts := alerts s; picker_calls := picker_calls s ++ [c] |}.

Definition takePhoto (P : platform) (D : device) (s : page) : outcome unit * page :=
  let s1 := asked RequestCameraPermissions s in
  match camera_permission D with
  | Rejects e => (Thrown e, s1)
  | Resolves granted =>
      if negb granted then
        (Done tt, Alert_alert "Permission needed" "Please allow camera access." s1)
      else
        let s2 := asked LaunchCamera s1 in
        match camera D with
        | Rejects e => (Thrown e, s2)
        | Resolves Canceled => (Done tt, s2)
        | Resolves (Picked []) => (Thrown (TypeError P ReadOfNullish), s2)
        | Resolves (Picked (uri :: _)) => (Done tt, setPhotoUri uri s2)
        end
  end.

Definition pickFromGallery (P : platform) (D : device) (s : page) : outcome unit * page :=
  let s1 := asked RequestMediaLibraryPermissions s in
  match library_permission D with
  | Rejects e => (Thrown e, s1)
  | Resolves granted =>
      if negb granted then
        (Done tt, Alert_alert "Permission needed" "Please allow gallery access." s1)
      else
        let s2 := asked LaunchImageLibrary s1 in
        match library D with
        | Rejects e => (Thrown e, s2)
        | Resolves Canceled => (Done tt, s2)
        | Resolves (Picked []) => (Thrown (TypeError P ReadOfNullish), s2)
        | Resolves (Picked (uri :: _)) => (Done tt, setPhotoUri uri s2)
        end
  end.

(** [!photoUri]: [null] and the empty string. *)
Definition no_photo (s : page) : bool :=
  match photoUri s with
  | None => true
  | Some uri => String.eqb uri ""
  end.

Definition submit (s : page) : page :=
  if no_photo s then Alert_alert "No photo" "Please take a photo first." s
  else Alert_alert "Submitted" "Photo submitted successfully!" s.

(** The page as first rendered, and a session: the handlers run one after
    the other, each against what the device answers at that time. *)
Definition first_page : page := {| photoUri := None; alerts := []; picker_calls := [] |}.

Inductive press : Type :=
| PressTakePhoto (D : device)
| PressPickFromGallery (D : device)
| PressSubmit.

Definition handle (P : platform) (s : page) (e : press) : page :=
  match e with
  | PressTakePhoto D => snd (takePhoto P D s)
  | PressPickFromGallery D => snd (pickFromGallery P D s)
  | PressSubmit => submit s
  end.

Definition session (P : platform) (presses : list press) : page :=
  fold_left (handle P) presses first_page.

(** The uri a press hands to [setPhotoUri], if it gets that far. *)
Definition chosen (e : press) : option string :=
  match e with
  | PressTakePhoto D =>
      match camera_permission D, camera D with
      | Resolves true, Resolves (Picked (uri :: _)) => Some uri
      | _, _ => None
      end
  | PressPickFromGallery D =>
      match library_permission D, library D with
      | Resolves true, Resolves (Picked (uri :: _)) => Some uri
      | _, _ => None
      end
  | PressSubmit => None
  end.

(** The uri of the latest press that got to [setPhotoUri]. *)
Definition last_chosen (presses : list press) : option string :=
  fold_left (fun acc e => match chosen e with Some u => Some u | None => acc end) presses None.

(** ** More sample inputs *)




(** [three_hospitals] on a device whose user refuses the permission. *)
Definition permission_refused : world := {|
  nominatim_search := nominatim_search three_hospitals;
  nominatim_reverse := nominatim_reverse three_hospitals;
  overpass := overpass three_hospitals;
  permission := Resolves "denied";
  position := position three_hospitals
|}.



(** A device that grants the camera and takes one photo, and refuses the
    gallery. *)
Definition one_photo : device := {|
  camera_permission := Resolves true;
  camera := Resolves (Picked ["file:///photo-1.jpg"]);
  library_permission := Resolves false;
  library := Resolves Canceled
|}.

(** * Properties *)

(** ** The embedding on small inputs *)

Example trim_strips_both_ends : trim "  19104 Philadelphia  " = "19104 Philadelphia".
Proof. reflexivity. Qed.

Example trim_of_blanks : trim (String (ascii_of_nat 9) " ") = "".
Proof. reflexivity. Qed.

Example join_with_spaces : join " " ["34"; "Spruce St"; "Philadelphia"] = "34 Spruce St Philadelphia".
Proof. reflexivity. Qed.

Example nullish_keeps_zero : nullish_or (VNum 0) (VNum 999) = VNum 0.
Proof. reflexivity. Qed.

Example or_skips_empty_name :
  js_or (js_or (VStr "") VUndefined) (VStr "Clinic") = VStr "Clinic".
Proof. reflexivity. Qed.

Example sine_of_infinity_is_nan (P : platform) :
  PrimFloat.is_nan (JSMath.sin P PrimFloat.infinity) = true.
Proof. reflexivity. Qed.

Example three_hospitals_nearest_first :
  map (fun r => (id r, name r, address r)) three_hospitals_found =
  [("node-2", VStr "Walk-in", None);
   ("node-1", VStr "Hospital", None);
   ("node-3", VStr "Hospital", Some "Trenton")].
Proof. reflexivity. Qed.

Example geocoder_no_match :
  outcome_of (geocodeOSM small_angle three_hospitals "zzz-nonexistent") = Done None.
Proof. reflexivity. Qed.

Example reverse_geocoder_down :
  outcome_of (reverseGeocodeOSM three_hospitals 40 (-75)) = Done (VStr "Current location").
Proof. reflexivity. Qed.

Example device_search_with_reverse_geocoder_down :
  let s := snd (runCareSearchFromCoords small_angle three_hospitals 40 (-75) (start idle)) in
  originLabel (ui s) = VStr "Current location" /\
  careResults (ui s) = three_hospitals_found /\
  careError (ui s) = VStr "" /\
  calls s = [FetchReverse 40 (-75); FetchOverpass 40 (-75)].
Proof. repeat split; reflexivity. Qed.

Example elements_not_an_array_throws (P : platform) :
  outcome_of (searchNearbyCareOSM P (world_of (Resolves (VObj [("elements", VNum 5)]))) 0 0) =
  Thrown (TypeError P NotCallable).
Proof. reflexivity. Qed.

(** ** The order of binary64 values

    Over the specification of binary64 arithmetic: comparison is the order
    of the ranks, and the sign of a difference is the sign of the
    difference of the ranks. *)

Section SpecOrder.
Local Open Scope Z_scope.
Variables prec emax : Z.
Hypothesis prec_pos : 0 < prec.
Hypothesis prec_lt_emax : prec < emax.

Local Abbreviation emin := (SpecFloat.emin prec emax).
Local Abbreviation fexp := (SpecFloat.fexp prec emax).

Lemma digits2_pos_bounds (m : positive) :
  2 ^ (Zpos (digits2_pos m) - 1) <= Zpos m < 2 ^ Zpos (digits2_pos m).
Proof.
  induction m as [m IH | m IH |]; cbn [digits2_pos].
  - rewrite Pos2Z.inj_succ.
    replace (Z.succ (Zpos (digits2_pos m)) - 1) with (Z.succ (Zpos (digits2_pos m) - 1)) by lia.
    rewrite !Z.pow_succ_r by lia. lia.
  - rewrite Pos2Z.inj_succ.
    replace (Z.succ (Zpos (digits2_pos m)) - 1) with (Z.succ (Zpos (digits2_pos m) - 1)) by lia.
    rewrite !Z.pow_succ_r by lia. lia.
  - cbn. lia.
Qed.

Lemma iter_xO_mul (m d : positive) :
  Zpos (Pos.iter xO m d) = Zpos m * 2 ^ Zpos d.
Proof.
  revert m. induction d as [| d IH] using Pos.peano_ind; intro m.
  - cbn. lia.
  - rewrite Pos.iter_succ, Pos2Z.inj_succ, Z.pow_succ_r by lia.
    rewrite Pos2Z.inj_xO, IH. lia.
Qed.

Lemma shl_align_fst (m : positive) (e e' : Z) :
  e' <= e -> Zpos (fst (shl_align m e e')) = Zpos m * 2 ^ (e - e').
Proof.
  intro H. unfold shl_align.
  destruct (e' - e) as [| p | p] eqn:E; cbn [fst].
  - replace (e - e') with 0 by lia. lia.
  - lia.
  - rewrite iter_xO_mul. f_equal. f_equal. lia.
Qed.

Lemma bounded_emin m e : SpecFloat.bounded prec emax m e = true -> emin <= e.
Proof.
  unfold SpecFloat.bounded, canonical_mantissa, SpecFloat.fexp. intro H.
  apply andb_prop in H as [H _]. apply Z.eqb_eq in H. lia.
Qed.

Lemma bounded_lt_pow m e :
  SpecFloat.bounded prec emax m e = true -> Zpos m < 2 ^ prec.
Proof.
  unfold SpecFloat.bounded, canonical_mantissa, SpecFloat.fexp. intro H.
  apply andb_prop in H as [H _]. apply Z.eqb_eq in H.
  pose proof (digits2_pos_bounds m) as [_ Hd].
  eapply Z.lt_le_trans; [exact Hd|].
  apply Z.pow_le_mono_r; lia.
Qed.

Lemma bounded_ge_pow m e :
  SpecFloat.bounded prec emax m e = true -> emin < e -> 2 ^ (prec - 1) <= Zpos m.
Proof.
  unfold SpecFloat.bounded, canonical_mantissa, SpecFloat.fexp. intros H He.
  apply andb_prop in H as [H _]. apply Z.eqb_eq in H.
  pose proof (digits2_pos_bounds m) as [Hd _].
  replace (prec - 1) with (Zpos (digits2_pos m) - 1) by lia. exact Hd.
Qed.

Lemma bounded_emax m e : SpecFloat.bounded prec emax m e = true -> e <= emax - prec.
Proof.
  unfold SpecFloat.bounded. intro H. apply andb_prop in H as [_ H]. apply Z.leb_le in H. exact H.
Qed.

Lemma Zcompare_mul_pos a b c : 0 < c -> (a * c ?= b * c) = (a ?= b).
Proof.
  intro Hc. destruct (Z.compare_spec a b) as [-> | H | H].
  - apply Z.compare_refl.
  - apply Z.compare_lt_iff. nia.
  - apply Z.compare_gt_iff. nia.
Qed.

(** Magnitudes of two canonical floats compare as their exponent and
    mantissa pairs do. *)
Lemma mag_compare m1 e1 m2 e2 :
  SpecFloat.bounded prec emax m1 e1 = true -> SpecFloat.bounded prec emax m2 e2 = true ->
  (Zpos m1 * 2 ^ (e1 - emin) ?= Zpos m2 * 2 ^ (e2 - emin)) =
  match e1 ?= e2 with
  | Lt => Lt
  | Gt => Gt
  | Eq => Pos.compare_cont Eq m1 m2
  end.
Proof.
  intros B1 B2.
  pose proof (bounded_emin _ _ B1) as E1. pose proof (bounded_emin _ _ B2) as E2.
  pose proof (bounded_lt_pow _ _ B1) as U1. pose proof (bounded_lt_pow _ _ B2) as U2.
  destruct (Z.compare_spec e1 e2) as [Heq | Hlt | Hgt].
  - subst e2. change (Pos.compare_cont Eq m1 m2) with (Zpos m1 ?= Zpos m2).
    apply Zcompare_mul_pos. apply Z.pow_pos_nonneg; lia.
  - apply Z.compare_lt_iff.
    pose proof (bounded_ge_pow _ _ B2 ltac:(lia)) as L2.
    replace (e2 - emin) with ((e2 - e1) + (e1 - emin)) by lia.
    rewrite Z.pow_add_r by lia.
    assert (0 < 2 ^ (e1 - emin)) by (apply Z.pow_pos_nonneg; lia).
    assert (2 ^ prec <= Zpos m2 * 2 ^ (e2 - e1)).
    { replace prec with ((prec - 1) + 1) at 1 by lia. rewrite Z.pow_add_r by lia.
      assert (2 ^ 1 <= 2 ^ (e2 - e1)) by (apply Z.pow_le_mono_r; lia).
      assert (0 < 2 ^ (prec - 1)) by (apply Z.pow_pos_nonneg; lia).
      nia. }
    nia.
  - apply Z.compare_gt_iff.
    pose proof (bounded_ge_pow _ _ B1 ltac:(lia)) as L1.
    replace (e1 - emin) with ((e1 - e2) + (e2 - emin)) by lia.
    rewrite Z.pow_add_r by lia.
    assert (0 < 2 ^ (e2 - emin)) by (apply Z.pow_pos_nonneg; lia).
    assert (2 ^ prec <= Zpos m1 * 2 ^ (e1 - e2)).
    { replace prec with ((prec - 1) + 1) at 1 by lia. rewrite Z.pow_add_r by lia.
      assert (2 ^ 1 <= 2 ^ (e1 - e2)) by (apply Z.pow_le_mono_r; lia).
      assert (0 < 2 ^ (prec - 1)) by (apply Z.pow_pos_nonneg; lia).
      nia. }
    nia.
Qed.

Lemma finite_rank_lt_inf m e :
  SpecFloat.bounded prec emax m e = true -> Zpos m * 2 ^ (e - emin) < 2 ^ (emax - emin).
Proof.
  intro B.
  pose proof (bounded_emin _ _ B). pose proof (bounded_lt_pow _ _ B). pose proof (bounded_emax _ _ B).
  assert (0 < 2 ^ (e - emin)) by (apply Z.pow_pos_nonneg; lia).
  apply Z.lt_le_trans with (2 ^ prec * 2 ^ (e - emin)); [nia|].
  rewrite <- Z.pow_add_r by lia. apply Z.pow_le_mono_r; lia.
Qed.

Lemma SFcompare_rank x y :
  SpecFloat.valid_binary prec emax x = true -> SpecFloat.valid_binary prec emax y = true ->
  sf_is_nan x = false -> sf_is_nan y = false ->
  SFcompare x y = Some (sf_rank prec emax x ?= sf_rank prec emax y).
Proof.
  intros Vx Vy Nx Ny.
  destruct x as [sx | sx | | sx mx ex]; try discriminate;
  destruct y as [sy | sy | | sy my ey]; try discriminate;
  cbn [SFcompare sf_rank SpecFloat.valid_binary] in *.
  all: try (pose proof (finite_rank_lt_inf _ _ Vx)).
  all: try (pose proof (finite_rank_lt_inf _ _ Vy)).
  all: assert (0 < 2 ^ (emax - emin)) by (apply Z.pow_pos_nonneg; unfold SpecFloat.emin; lia).
  all: try (assert (0 < Zpos mx * 2 ^ (ex - emin)) by (apply Z.mul_pos_pos; [lia | apply Z.pow_pos_nonneg; [lia | pose proof (bounded_emin _ _ Vx); lia]])).
  all: try (assert (0 < Zpos my * 2 ^ (ey - emin)) by (apply Z.mul_pos_pos; [lia | apply Z.pow_pos_nonneg; [lia | pose proof (bounded_emin _ _ Vy); lia]])).
  all: try solve [reflexivity].
  all: try solve [f_equal; destruct sx; try destruct sy; cbn [cond_Zopp]; symmetry;
                  first [apply Z.compare_eq_iff | apply Z.compare_lt_iff | apply Z.compare_gt_iff]; lia].
  all: try solve [f_equal; destruct sy; try destruct sx; cbn [cond_Zopp]; symmetry;
                  first [apply Z.compare_eq_iff | apply Z.compare_lt_iff | apply Z.compare_gt_iff]; lia].
  f_equal. destruct sx, sy; cbn [cond_Zopp].
  - rewrite Z.compare_opp. rewrite (mag_compare _ _ _ _ Vy Vx).
    rewrite (Z.compare_antisym ey ex). rewrite (Pos.compare_cont_antisym).
    destruct (ey ?= ex); cbn; reflexivity.
  - symmetry. apply Z.compare_lt_iff. lia.
  - symmetry. apply Z.compare_gt_iff. lia.
  - symmetry. apply mag_compare; assumption.
Qed.



Lemma signed_nonzero_sgn s r :
  signed_nonzero s r -> sf_sgn r = if s then Lt else Gt.
Proof. intros [-> | (m & e & ->)]; reflexivity. Qed.

Lemma shr_1_m mrs : 0 <= shr_m mrs -> shr_m (shr_1 mrs) = shr_m mrs / 2.
Proof.
  destruct mrs as [m r s]. cbn [shr_m]. intro Hm.
  destruct m as [| p | p]; [reflexivity | | lia].
  destruct p as [p | p |]; cbn [shr_1 shr_m].
  - rewrite Pos2Z.inj_xI. apply Z.div_unique with 1; lia.
  - rewrite Pos2Z.inj_xO. apply Z.div_unique with 0; lia.
  - reflexivity.
Qed.

Lemma iter_shr_1_m p : forall mrs, 0 <= shr_m mrs ->
  shr_m (SpecFloat.iter_pos shr_1 p mrs) = shr_m mrs / 2 ^ Zpos p.
Proof.
  induction p as [p IH | p IH |]; intros mrs Hm; cbn [SpecFloat.iter_pos].
  - assert (H1 : 0 <= shr_m (shr_1 mrs)) by (rewrite shr_1_m by assumption; apply Z.div_pos; lia).
    assert (H2 : 0 <= shr_m (SpecFloat.iter_pos shr_1 p (shr_1 mrs)))
      by (rewrite IH by assumption; apply Z.div_pos; [assumption | apply Z.pow_pos_nonneg; lia]).
    rewrite IH, IH, shr_1_m by assumption.
    assert (0 < 2 ^ Zpos p) by (apply Z.pow_pos_nonneg; lia).
    rewrite !Z.div_div by lia. f_equal.
    rewrite <- !Z.pow_add_r by lia. change 2 with (2 ^ 1) at 1.
    rewrite <- Z.pow_add_r by lia. f_equal. lia.
  - assert (H2 : 0 <= shr_m (SpecFloat.iter_pos shr_1 p mrs))
      by (rewrite IH by assumption; apply Z.div_pos; [assumption | apply Z.pow_pos_nonneg; lia]).
    rewrite IH, IH by assumption.
    assert (0 < 2 ^ Zpos p) by (apply Z.pow_pos_nonneg; lia).
    rewrite !Z.div_div by lia. f_equal.
    rewrite <- !Z.pow_add_r by lia. f_equal. lia.
  - rewrite shr_1_m by assumption. reflexivity.
Qed.

Lemma shr_record_of_loc_m m l : shr_m (shr_record_of_loc m l) = m.
Proof. destruct l as [| []]; reflexivity. Qed.

(** Shifting a positive mantissa to its canonical exponent leaves it
    positive. *)
Lemma shr_fexp_pos (m : positive) (e : Z) (l : location) :
  emin <= e ->
  0 < shr_m (fst (shr_fexp prec emax (Zpos m) e l)) /\
  emin <= snd (shr_fexp prec emax (Zpos m) e l).
Proof.
  intro He. unfold shr_fexp, shr. cbn [Zdigits2].
  pose proof (digits2_pos_bounds m) as [Hlo Hhi].
  set (d := Zpos (digits2_pos m)) in *.
  destruct (SpecFloat.fexp prec emax (d + e) - e) as [| n | n] eqn:En; cbn [fst snd].
  - rewrite shr_record_of_loc_m. lia.
  - rewrite iter_shr_1_m by (rewrite shr_record_of_loc_m; lia).
    rewrite shr_record_of_loc_m.
    unfold SpecFloat.fexp in En.
    assert (Hn : Zpos n = d - prec) by lia.
    split; [| lia].
    apply Z.div_str_pos. split; [apply Z.pow_pos_nonneg; lia |].
    eapply Z.le_trans; [| exact Hlo]. apply Z.pow_le_mono_r; lia.
  - rewrite shr_record_of_loc_m. lia.
Qed.

Lemma round_nearest_even_ge m l : m <= round_nearest_even m l.
Proof.
  destruct l as [| []]; cbn [round_nearest_even]; try lia.
  destruct (Z.even m); lia.
Qed.

Lemma binary_round_aux_signed s (m : positive) e l :
  emin <= e -> signed_nonzero s (binary_round_aux prec emax s (Zpos m) e l).
Proof.
  intro He. unfold binary_round_aux.
  pose proof (shr_fexp_pos m e l He) as [H1 H2].
  destruct (shr_fexp prec emax (Zpos m) e l) as [mrs' e'] eqn:E1. cbn [fst snd] in H1, H2.
  pose proof (round_nearest_even_ge (shr_m mrs') (loc_of_shr_record mrs')) as H3.
  destruct (round_nearest_even (shr_m mrs') (loc_of_shr_record mrs')) as [| m1 | m1] eqn:E2; try lia.
  pose proof (shr_fexp_pos m1 e' loc_Exact H2) as [H4 H5].
  destruct (shr_fexp prec emax (Zpos m1) e' loc_Exact) as [mrs'' e''] eqn:E3. cbn [fst snd] in H4, H5.
  destruct (shr_m mrs'') as [| m2 | m2]; try lia.
  destruct (e'' <=? emax - prec); [right; eauto | left; reflexivity].
Qed.

Lemma binary_round_signed s (m : positive) e :
  emin <= e -> signed_nonzero s (binary_round prec emax s m e).
Proof.
  intro He. unfold binary_round.
  destruct (shl_align m e (SpecFloat.fexp prec emax (Zpos (digits2_pos m) + e))) as [mz ez] eqn:E.
  apply binary_round_aux_signed.
  unfold shl_align in E.
  destruct (SpecFloat.fexp prec emax (Zpos (digits2_pos m) + e) - e) eqn:E'; inversion E; subst;
    unfold SpecFloat.fexp in *; lia.
Qed.

Lemma binary_normalize_sgn (D : Z) (e : Z) :
  emin <= e -> sf_sgn (binary_normalize prec emax D e false) = (D ?= 0).
Proof.
  intro He. destruct D as [| p | p]; cbn [binary_normalize].
  - reflexivity.
  - rewrite (signed_nonzero_sgn false) by (apply binary_round_signed; assumption). reflexivity.
  - rewrite (signed_nonzero_sgn true) by (apply binary_round_signed; assumption). reflexivity.
Qed.

Lemma cond_Zopp_mul s a b : cond_Zopp s a * b = cond_Zopp s (a * b).
Proof. destruct s; cbn [cond_Zopp]; lia. Qed.

(** The sign of a rounded difference is the sign of the exact one. *)
Lemma SFsub_sgn x y :
  SpecFloat.valid_binary prec emax x = true -> SpecFloat.valid_binary prec emax y = true ->
  sf_is_nan x = false -> sf_is_nan y = false ->
  sf_sgn (SFsub prec emax x y) = (sf_rank prec emax x ?= sf_rank prec emax y).
Proof.
  intros Vx Vy Nx Ny.
  pose proof (SFcompare_rank x y Vx Vy Nx Ny) as Hc.
  apply (f_equal (fun o => match o with Some c => c | None => Eq end)) in Hc.
  destruct x as [sx | sx | | sx mx ex]; try discriminate;
  destruct y as [sy | sy | | sy my ey]; try discriminate;
  cbn [SFsub].
  all: try solve [rewrite <- Hc; destruct sx; try destruct sy; reflexivity].
  all: try solve [rewrite <- Hc; destruct sy; try destruct sx; reflexivity].
  clear Hc. cbn [SpecFloat.valid_binary] in Vx, Vy.
  pose proof (bounded_emin _ _ Vx) as Ex. pose proof (bounded_emin _ _ Vy) as Ey.
  cbv zeta. rewrite binary_normalize_sgn by lia.
  rewrite !shl_align_fst by lia. cbn [sf_rank].
  set (ez := Z.min ex ey).
  assert (Hp : 0 < 2 ^ (ez - emin)) by (apply Z.pow_pos_nonneg; lia).
  replace (ex - emin) with ((ex - ez) + (ez - emin)) by lia.
  replace (ey - emin) with ((ey - ez) + (ez - emin)) by lia.
  rewrite !Z.pow_add_r by lia. rewrite !Z.mul_assoc, <- !cond_Zopp_mul.
  rewrite Zcompare_mul_pos by assumption.
  rewrite <- Z.compare_sub. reflexivity.
Qed.
End SpecOrder.

(** ** Binary64 numbers *)

Section Binary64.
Local Open Scope Z_scope.

Lemma Prim2SF_inj (x y : float) : Prim2SF x = Prim2SF y -> x = y.
Proof.
  intro H. rewrite <- (SF2Prim_Prim2SF x), <- (SF2Prim_Prim2SF y), H. reflexivity.
Qed.

Lemma SFcompare_refl (v : spec_float) :
  sf_is_nan v = false -> SFcompare v v = Some Eq.
Proof.
  destruct v as [s | s | | s m e]; try discriminate; intros _; cbn [SFcompare].
  - reflexivity.
  - destruct s; reflexivity.
  - destruct s; rewrite Z.compare_refl, Pos.compare_cont_refl; reflexivity.
Qed.

Lemma is_nan_spec (x : float) : PrimFloat.is_nan x = sf_is_nan (Prim2SF x).
Proof.
  unfold PrimFloat.is_nan. rewrite eqb_spec. unfold SFeqb.
  destruct (sf_is_nan (Prim2SF x)) eqn:E.
  - destruct (Prim2SF x); try discriminate. reflexivity.
  - rewrite SFcompare_refl by assumption. reflexivity.
Qed.

Lemma compare_rank (x y : float) :
  PrimFloat.is_nan x = false -> PrimFloat.is_nan y = false ->
  SFcompare (Prim2SF x) (Prim2SF y) = Some (rank x ?= rank y).
Proof.
  rewrite !is_nan_spec. intros Hx Hy. unfold rank.
  apply SFcompare_rank; try reflexivity; try assumption; apply Prim2SF_valid.
Qed.

Lemma ltb_rank (x y : float) :
  PrimFloat.is_nan x = false -> PrimFloat.is_nan y = false ->
  (x <? y)%float = (rank x <? rank y).
Proof.
  intros Hx Hy. rewrite ltb_spec. unfold SFltb, Z.ltb.
  rewrite (compare_rank x y Hx Hy). reflexivity.
Qed.

Lemma leb_rank (x y : float) :
  PrimFloat.is_nan x = false -> PrimFloat.is_nan y = false ->
  (x <=? y)%float = (rank x <=? rank y).
Proof.
  intros Hx Hy. rewrite leb_spec. unfold SFleb, Z.leb.
  rewrite (compare_rank x y Hx Hy). destruct (rank x ?= rank y); reflexivity.
Qed.

Lemma ltb_nan_r (x y : float) : PrimFloat.is_nan y = true -> (x <? y)%float = false.
Proof.
  rewrite is_nan_spec, ltb_spec. intro H.
  destruct (Prim2SF y); try discriminate. destruct (Prim2SF x); reflexivity.
Qed.

Lemma sub_nan_l (x y : float) : PrimFloat.is_nan x = true -> PrimFloat.is_nan (x - y) = true.
Proof.
  rewrite !is_nan_spec, sub_spec. intro H. destruct (Prim2SF x); try discriminate. reflexivity.
Qed.

Lemma sub_nan_r (x y : float) : PrimFloat.is_nan y = true -> PrimFloat.is_nan (x - y) = true.
Proof.
  rewrite !is_nan_spec, sub_spec. intro H.
  destruct (Prim2SF y); try discriminate. destruct (Prim2SF x); reflexivity.
Qed.

Lemma SFltb_zero_sgn (v : spec_float) :
  SFltb (S754_zero false) v = match sf_sgn v with Gt => true | _ => false end.
Proof. destruct v as [s | s | | s m e]; try destruct s; reflexivity. Qed.

(** [0 < x - y] exactly when [y < x], for numbers that are not NaN. *)
Lemma pos_sub_rank (x y : float) :
  PrimFloat.is_nan x = false -> PrimFloat.is_nan y = false ->
  (0 <? x - y)%float = (rank y <? rank x).
Proof.
  intros Hx Hy. rewrite ltb_spec, sub_spec.
  change (Prim2SF 0) with (S754_zero false). rewrite SFltb_zero_sgn.
  unfold SF64sub. rewrite SFsub_sgn; try reflexivity; try apply Prim2SF_valid;
    try (rewrite <- is_nan_spec; assumption).
  fold (rank x) (rank y). rewrite Z.ltb_compare, (Z.compare_antisym (rank x) (rank y)).
  destruct (rank x ?= rank y); reflexivity.
Qed.

End Binary64.

(** ** The sort *)

Section Sorting.

Lemma insert_perm {A} (cmp : A -> A -> float) (x : A) (l : list A) :
  Permutation (insert cmp x l) (x :: l).
Proof.
  induction l as [| h t IH]; cbn [insert].
  - apply Permutation_refl.
  - destruct (0 <? cmp x h)%float.
    + eapply perm_trans; [apply perm_skip, IH | apply perm_swap].
    + apply Permutation_refl.
Qed.

Lemma sort_perm {A} (cmp : A -> A -> float) (l : list A) :
  Permutation (sort cmp l) l.
Proof.
  induction l as [| x l IH]; cbn [sort fold_right].
  - apply perm_nil.
  - eapply perm_trans; [apply insert_perm | apply perm_skip, IH].
Qed.

(** The test of [insert] on the comparator of the code. *)
Lemma comparator_test (x h : CareResult) :
  (0 <? comparator x h)%float =
  negb (has_nan_key x) && negb (has_nan_key h) && (rank (key h) <? rank (key x))%Z.
Proof.
  unfold comparator, has_nan_key. fold (key x) (key h).
  destruct (PrimFloat.is_nan (key x)) eqn:Hx; cbn [negb andb].
  - apply ltb_nan_r, sub_nan_l, Hx.
  - destruct (PrimFloat.is_nan (key h)) eqn:Hh; cbn [negb andb].
    + apply ltb_nan_r, sub_nan_r, Hh.
    + apply pos_sub_rank; assumption.
Qed.

Lemma clean_prefix_insert_Forall (Q : CareResult -> Prop) (x : CareResult) (t : list CareResult) :
  Q x -> Forall Q (clean_prefix t) -> Forall Q (clean_prefix (insert comparator x t)).
Proof.
  intros Hx. induction t as [| h t IH]; intro Ht; cbn [insert clean_prefix].
  - destruct (has_nan_key x); constructor; [assumption | constructor].
  - rewrite comparator_test.
    destruct (has_nan_key x) eqn:Nx; cbn [negb andb clean_prefix]; rewrite ?Nx.
    + constructor.
    + cbn [clean_prefix] in Ht.
      destruct (has_nan_key h) eqn:Nh; cbn [negb andb clean_prefix]; rewrite ?Nx, ?Nh.
      * constructor; [assumption | constructor].
      * destruct (rank (key h) <? rank (key x))%Z; cbn [clean_prefix]; rewrite ?Nx, ?Nh.
        -- inversion Ht; subst. constructor; [assumption | apply IH; assumption].
        -- constructor; assumption.
Qed.

Lemma insert_sorted (x : CareResult) (t : list CareResult) :
  StronglySorted rank_le (clean_prefix t) ->
  StronglySorted rank_le (clean_prefix (insert comparator x t)).
Proof.
  induction t as [| h t IH]; intro Ht; cbn [insert clean_prefix].
  - destruct (has_nan_key x); repeat constructor.
  - rewrite comparator_test.
    destruct (has_nan_key x) eqn:Nx; cbn [negb andb clean_prefix]; rewrite ?Nx.
    + constructor.
    + cbn [clean_prefix] in Ht.
      destruct (has_nan_key h) eqn:Nh; cbn [negb andb clean_prefix]; rewrite ?Nx, ?Nh.
      * repeat constructor.
      * destruct (rank (key h) <? rank (key x))%Z eqn:Hlt; cbn [clean_prefix]; rewrite ?Nx, ?Nh.
        -- inversion Ht as [| ? ? Hs Hf]; subst.
           constructor; [apply IH; assumption |].
           apply clean_prefix_insert_Forall; [| assumption].
           unfold rank_le. apply Z.ltb_lt in Hlt. lia.
        -- apply Z.ltb_ge in Hlt.
           constructor; [assumption |].
           inversion Ht as [| ? ? Hs Hf]; subst.
           constructor; [exact Hlt |].
           eapply Forall_impl; [| exact Hf].
           unfold rank_le. intros a Ha. lia.
Qed.

Lemma sort_sorted (l : list CareResult) :
  StronglySorted rank_le (clean_prefix (sort comparator l)).
Proof.
  induction l as [| x l IH]; cbn [sort fold_right].
  - constructor.
  - apply insert_sorted, IH.
Qed.

Lemma firstn_clean_prefix (n : nat) (l : list CareResult) :
  Forall (fun r => has_nan_key r = false) (firstn n l) ->
  firstn n l = firstn n (clean_prefix l).
Proof.
  revert l. induction n as [| n IH]; intros [| r l] H; cbn [firstn clean_prefix] in *; try reflexivity.
  inversion H as [| ? ? Hr Hl]; subst. rewrite Hr. cbn [firstn]. f_equal. apply IH, Hl.
Qed.

Lemma In_firstn {A} (n : nat) (l : list A) (a : A) : In a (firstn n l) -> In a l.
Proof.
  revert l. induction n as [| n IH]; intros [| b l] H; cbn [firstn] in H; try contradiction.
  destruct H as [-> | H]; [left; reflexivity | right; apply IH, H].
Qed.

Lemma NoDup_firstn {A} (n : nat) (l : list A) : NoDup l -> NoDup (firstn n l).
Proof.
  revert l. induction n as [| n IH]; intros [| b l] H; cbn [firstn]; try constructor.
  - inversion H; subst. intro Hin. apply In_firstn in Hin. contradiction.
  - inversion H; subst. apply IH. assumption.
Qed.

Lemma StronglySorted_firstn {A} (R : A -> A -> Prop) (n : nat) (l : list A) :
  StronglySorted R l -> StronglySorted R (firstn n l).
Proof.
  revert l. induction n as [| n IH]; intros [| a l] H; cbn [firstn]; try constructor.
  - inversion H; subst. apply IH. assumption.
  - inversion H as [| ? ? Hs Hf]; subst.
    rewrite Forall_forall in *. intros b Hb. apply Hf, (In_firstn n), Hb.
Qed.

(** On entries whose key is not NaN, the order of the ranks is the order
    of the keys. *)
Lemma rank_le_key_le (rs : list CareResult) :
  Forall (fun r => has_nan_key r = false) rs ->
  StronglySorted rank_le rs -> ascending rs.
Proof.
  unfold ascending. induction rs as [| r rs IH]; intros Hn Hs.
  - constructor.
  - inversion Hn as [| ? ? Hr Hrs]; subst. inversion Hs as [| ? ? Hs' Hf]; subst.
    constructor; [apply IH; assumption |].
    rewrite Forall_forall in *. intros b Hb.
    unfold key_le. unfold has_nan_key in *.
    rewrite leb_rank; [apply Z.leb_le, Hf, Hb | assumption | apply Hrs, Hb].
Qed.

(** The first [n] entries of the sorted array are ascending as soon as none
    of them has a NaN key. *)
Lemma sort_firstn_ascending (n : nat) (l : list CareResult) :
  Forall (fun r => has_nan_key r = false) (firstn n (sort comparator l)) ->
  ascending (firstn n (sort comparator l)).
Proof.
  intro H. apply rank_le_key_le; [assumption |].
  rewrite firstn_clean_prefix by assumption.
  apply StronglySorted_firstn, sort_sorted.
Qed.

End Sorting.

(** ** The facility search, step by step *)

Section Search.
Variable P : platform.
Variables olat olon : float.

(** The callback of [map] neither reads nor writes the machine. *)
Lemma normalize_state (el : value) (s : machine) :
  normalize P olat olon el s = (outcome_of (normalize P olat olon el), s).
Proof.
  unfold outcome_of, normalize, bind, getp, ret, throw.
  destruct (is_nullish el); [reflexivity |]. cbn [fst].
  destruct (nullish_or (get el "lat") (opt_get (get el "center") "lat")); try reflexivity.
  destruct (nullish_or (get el "lon") (opt_get (get el "center") "lon")); reflexivity.
Qed.

(** What a kept element becomes. *)
Lemma normalize_kept (el : value) (r : CareResult) :
  outcome_of (normalize P olat olon el) = Done (Some r) ->
  id r = element_id P el /\
  nullish_or (get el "lat") (opt_get (get el "center") "lat") = VNum (lat r) /\
  nullish_or (get el "lon") (opt_get (get el "center") "lon") = VNum (lon r) /\
  distanceMiles r =
    Some (toMiles (A := float_arith P)
            (haversineMeters (A := float_arith P) olat olon (lat r) (lon r))).
Proof.
  unfold outcome_of, normalize, bind, getp, ret, throw.
  destruct (is_nullish el); [discriminate |]. cbn [fst].
  destruct (nullish_or (get el "lat") (opt_get (get el "center") "lat")); try discriminate.
  destruct (nullish_or (get el "lon") (opt_get (get el "center") "lon")); try discriminate.
  intro H. injection H as <-. cbn. repeat split; reflexivity.
Qed.

Lemma mapM_normalize (items : list value) (s : machine) (mapped : list (option CareResult)) (s' : machine) :
  mapM (normalize P olat olon) items s = (Done mapped, s') ->
  s' = s /\
  Forall2 (fun el o => outcome_of (normalize P olat olon el) = Done o) items mapped.
Proof.
  revert mapped. induction items as [| el items IH]; intros mapped; cbn [mapM].
  - unfold ret. intro H. injection H as <- <-. split; [reflexivity | constructor].
  - unfold bind at 1. rewrite normalize_state.
    destruct (outcome_of (normalize P olat olon el)) as [o | e] eqn:Ho; [| discriminate].
    unfold bind at 1.
    destruct (mapM (normalize P olat olon) items s) as [[ys | e] s1] eqn:Hm; [| discriminate].
    unfold ret. intro H. injection H as <- <-.
    destruct (IH ys eq_refl) as [-> HF]. split; [reflexivity |].
    constructor; assumption.
Qed.

(** How [searchNearbyCareOSM] comes to return a list. *)
Lemma search_returns (W : world) (s : machine) (rs : list CareResult) (s' : machine) :
  searchNearbyCareOSM P W olat olon s = (Done rs, s') ->
  exists json items mapped,
    overpass W olat olon = Resolves json /\
    nullish_or (opt_get json "elements") (VArr []) = VArr items /\
    Forall2 (fun el o => outcome_of (normalize P olat olon el) = Done o) items mapped /\
    rs = firstn 8 (sort comparator (keep mapped)).
Proof.
  unfold searchNearbyCareOSM. unfold bind at 1, await.
  destruct (overpass W olat olon) as [e | json] eqn:Ho; [discriminate |].
  destruct (nullish_or (opt_get json "elements") (VArr [])) as [| | | | | items |] eqn:He;
    try (unfold throw; discriminate).
  unfold bind.
  destruct (mapM (normalize P olat olon) items _) as [[mapped | e] s1] eqn:Hm; [| discriminate].
  unfold ret. intro H. injection H as <- <-.
  apply mapM_normalize in Hm as [_ HF].
  exists json, items, mapped. repeat split; try assumption; reflexivity.
Qed.

(** The outcome of the search does not depend on the machine it runs on,
    and the search only logs its one call. *)
Lemma mapM_normalize_state (items : list value) (s : machine) :
  mapM (normalize P olat olon) items s = (outcome_of (mapM (normalize P olat olon) items), s).
Proof.
  unfold outcome_of. induction items as [| el items IH]; cbn [mapM]; [reflexivity |].
  unfold bind. rewrite (normalize_state el s), (normalize_state el (start idle)).
  destruct (outcome_of (normalize P olat olon el)); [| reflexivity].
  rewrite IH.
  destruct (mapM (normalize P olat olon) items (start idle)) as [[ys | e] s1]; reflexivity.
Qed.

Lemma search_state (W : world) (s : machine) :
  searchNearbyCareOSM P W olat olon s =
  (outcome_of (searchNearbyCareOSM P W olat olon), logged (FetchOverpass olat olon) s).
Proof.
  unfold outcome_of, searchNearbyCareOSM, bind, await.
  destruct (overpass W olat olon) as [e | json]; [reflexivity |].
  destruct (nullish_or (opt_get json "elements") (VArr [])); try reflexivity.
  rewrite !(mapM_normalize_state items). cbn [fst].
  destruct (outcome_of (mapM (normalize P olat olon) items)); reflexivity.
Qed.

Lemma keep_In (items : list value) (mapped : list (option CareResult)) (r : CareResult) :
  Forall2 (fun el o => outcome_of (normalize P olat olon el) = Done o) items mapped ->
  In r (keep mapped) ->
  exists el, In el items /\ outcome_of (normalize P olat olon el) = Done (Some r).
Proof.
  induction 1 as [| el o items mapped Ho HF IH]; cbn [keep]; [contradiction |].
  destruct o as [r' |]; cbn [In].
  - intros [-> | Hin].
    + exists el. split; [left; reflexivity | assumption].
    + destruct (IH Hin) as (el' & Hel & Hr). exists el'. split; [right |]; assumption.
  - intro Hin. destruct (IH Hin) as (el' & Hel & Hr). exists el'. split; [right |]; assumption.
Qed.

Lemma keep_NoDup (items : list value) (mapped : list (option CareResult)) :
  Forall2 (fun el o => outcome_of (normalize P olat olon el) = Done o) items mapped ->
  NoDup (map (element_id P) items) ->
  NoDup (map id (keep mapped)).
Proof.
  induction 1 as [| el o items mapped Ho HF IH]; cbn [keep map]; intro Hnd; [constructor |].
  inversion Hnd as [| ? ? Hnotin Hnd']; subst.
  destruct o as [r |]; cbn [map]; [| apply IH; assumption].
  constructor; [| apply IH; assumption].
  intro Hin. apply Hnotin.
  apply in_map_iff in Hin as (r' & Hid & Hr').
  destruct (keep_In _ _ _ HF Hr') as (el' & Hel' & Hn').
  apply normalize_kept in Ho as [Ho _]. apply normalize_kept in Hn' as [Hn' _].
  rewrite <- Ho, <- Hid, Hn'. apply in_map. assumption.
Qed.

End Search.

(** ** What the facility search returns *)

Section SearchResults.
Variable P : platform.
Variable W : world.
Variables olat olon : float.

(** Every returned entry is the normal form of an element of the body. *)
Lemma returned_from_element (rs : list CareResult) (r : CareResult) :
  outcome_of (searchNearbyCareOSM P W olat olon) = Done rs -> In r rs ->
  exists json items el,
    overpass W olat olon = Resolves json /\
    nullish_or (opt_get json "elements") (VArr []) = VArr items /\
    In el items /\
    outcome_of (normalize P olat olon el) = Done (Some r).
Proof.
  unfold outcome_of. intros H Hin.
  destruct (searchNearbyCareOSM P W olat olon (start idle)) as [o s'] eqn:E. cbn [fst] in H. subst o.
  apply search_returns in E as (json & items & mapped & Ho & He & HF & ->).
  apply In_firstn in Hin.
  apply (Permutation_in _ (sort_perm comparator (keep mapped))) in Hin.
  destruct (keep_In _ _ _ _ _ _ HF Hin) as (el & Hel & Hn).
  exists json, items, el. repeat split; assumption.
Qed.

Lemma returned_distance (rs : list CareResult) :
  outcome_of (searchNearbyCareOSM P W olat olon) = Done rs ->
  Forall (fun r =>
            distanceMiles r =
              Some (toMiles (A := float_arith P)
                      (haversineMeters (A := float_arith P) olat olon (lat r) (lon r)))) rs.
Proof.
  intro H. apply Forall_forall. intros r Hin.
  destruct (returned_from_element rs r H Hin) as (json & items & el & _ & _ & _ & Hn).
  apply normalize_kept in Hn. tauto.
Qed.

End SearchResults.

(** C9.  Every entry [searchNearbyCareOSM] returns has a [distanceMiles]:
    the miles of the haversine distance from the origin to the coordinate
    the entry carries.  On its own output the comparator therefore never
    takes the fallback: whatever value stands in for a missing distance, the
    value compared is the entry's distance. *)
Theorem returned_distance_defined
  (P : platform) (W : world) (olat olon : float) (rs : list CareResult) :
  outcome_of (searchNearbyCareOSM P W olat olon) = Done rs ->
  Forall (fun r =>
            distanceMiles r =
              Some (toMiles (A := float_arith P)
                      (haversineMeters (A := float_arith P) olat olon (lat r) (lon r))) /\
            distanceMiles r <> None /\
            forall d, distance_or d r = distance_or 999 r) rs.
Proof.
  intro H. pose proof (returned_distance P W olat olon rs H) as HF.
  eapply Forall_impl; [| exact HF]. cbv beta. intros r Hr.
  split; [exact Hr |]. split; [rewrite Hr; discriminate |].
  intro d. unfold distance_or. rewrite Hr. reflexivity.
Qed.

Lemma keep_candidates (P : platform) (olat olon : float)
  (items : list value) (mapped : list (option CareResult)) :
  Forall2 (fun el o => outcome_of (normalize P olat olon el) = Done o) items mapped ->
  keep mapped = candidates P olat olon items.
Proof.
  unfold candidates. induction 1 as [| el o items mapped Ho HF IH]; cbn [keep flat_map]; [reflexivity |].
  rewrite Ho. destruct o as [r |]; cbn [app]; rewrite IH; reflexivity.
Qed.

(** C1, as amended.  The list [searchNearbyCareOSM] returns has at most 8
    entries; it is ascending by [distanceMiles] (a missing distance counting
    as 999) whenever no element of the body gets a NaN distance; and no
    entry without a distance stands before one that has a distance. *)
Theorem search_bounded_ascending
  (P : platform) (W : world) (olat olon : float)
  (json : value) (items : list value) (rs : list CareResult) :
  overpass W olat olon = Resolves json ->
  nullish_or (opt_get json "elements") (VArr []) = VArr items ->
  outcome_of (searchNearbyCareOSM P W olat olon) = Done rs ->
  (List.length rs <= 8)%nat /\
  (Forall (fun r => has_nan_key r = false) (candidates P olat olon items) -> ascending rs) /\
  unknown_last rs.
Proof.
  intros Ho He H. pose proof (returned_distance P W olat olon rs H) as Hd.
  unfold outcome_of in H.
  destruct (searchNearbyCareOSM P W olat olon (start idle)) as [o s'] eqn:E. cbn [fst] in H. subst o.
  apply search_returns in E as (json' & items' & mapped & Ho' & He' & HF & ->).
  rewrite Ho in Ho'. injection Ho' as <-. rewrite He in He'. injection He' as <-.
  split; [apply firstn_le_length |]. split.
  - intro Hnan. apply sort_firstn_ascending.
    rewrite <- (keep_candidates P olat olon items mapped HF) in Hnan.
    rewrite Forall_forall in *. intros r Hr. apply Hnan.
    apply In_firstn in Hr. apply (Permutation_in _ (sort_perm comparator (keep mapped))). exact Hr.
  - intros i j a b Ha Hb Hnone Hsome.
    apply nth_error_In in Ha. rewrite Forall_forall in Hd.
    rewrite (Hd a Ha) in Hnone. discriminate.
Qed.

(** A run of [search_bounded_ascending]: three hospitals come back nearest
    first. *)
Lemma search_bounded_ascending_witness :
  (List.length three_hospitals_found <= 8)%nat /\ ascending three_hospitals_found.
Proof.
  destruct (search_bounded_ascending small_angle three_hospitals 40 (-75) _ _ three_hospitals_found
              eq_refl eq_refl)
    as (Hlen & Hasc & _).
  - vm_compute. reflexivity.
  - split; [exact Hlen |]. apply Hasc. repeat constructor.
Defined.

(** On every platform the search of [overflowing_latitude] from (0, 0)
    returns a list that is not ascending: the first distance is NaN.  (The
    comparator returns NaN on the two entries in either order, so no sort
    moves them; and the other order would not be ascending either.) *)
Lemma overflowing_latitude_not_ascending (P : platform) :
  exists rs,
    outcome_of (searchNearbyCareOSM P overflowing_latitude 0 0) = Done rs /\
    ~ ascending rs /\ ~ ascending (rev rs).
Proof.
  eexists. split; [vm_compute; reflexivity |].
  split; intro H; inversion H as [| ? ? _ Hf]; subst;
    inversion Hf as [| ? ? Hle _]; subst; vm_compute in Hle; discriminate.
Qed.

(** C1, as stated, fails: a returned list need not be ascending. *)
Lemma search_not_always_ascending :
  ~ (forall (P : platform) (W : world) (olat olon : float) (rs : list CareResult),
        outcome_of (searchNearbyCareOSM P W olat olon) = Done rs ->
        (List.length rs <= 8)%nat /\ ascending rs /\ unknown_last rs).
Proof.
  intro H.
  destruct (overflowing_latitude_not_ascending small_angle) as (rs & Hrs & Hna & _).
  apply Hna. apply (H small_angle overflowing_latitude 0%float 0%float rs Hrs).
Qed.

(** A run of [returned_distance_defined]. *)
Lemma returned_distance_defined_witness :
  Forall (fun r => distanceMiles r <> None) three_hospitals_found.
Proof.
  eapply Forall_impl;
    [| apply (returned_distance_defined small_angle three_hospitals 40 (-75) three_hospitals_found);
       vm_compute; reflexivity].
  cbv beta. intros r (_ & H & _). exact H.
Defined.

(** ** The distance read over the reals *)

Section RealReading.
Local Open Scope R_scope.










End RealReading.

(** ** Identifiers and the scenario of one hospital *)

(** C8, as amended.  The identifier of every returned entry is the type of
    a raw element, a dash and the id of that element; the identifiers of
    one search are pairwise distinct whenever the identifiers derived from
    the raw elements of the body are. *)
Theorem returned_ids
  (P : platform) (W : world) (olat olon : float)
  (json : value) (items : list value) (rs : list CareResult) :
  overpass W olat olon = Resolves json ->
  nullish_or (opt_get json "elements") (VArr []) = VArr items ->
  outcome_of (searchNearbyCareOSM P W olat olon) = Done rs ->
  Forall (fun r =>
            exists el, In el items /\
              outcome_of (normalize P olat olon el) = Done (Some r) /\
              id r = (to_string P (get el "type") ++ "-" ++ to_string P (get el "id"))%string) rs /\
  (NoDup (map (element_id P) items) -> NoDup (map id rs)).
Proof.
  intros Ho He H. split.
  - apply Forall_forall. intros r Hin.
    destruct (returned_from_element P W olat olon rs r H Hin) as (json' & items' & el & Ho' & He' & Hel & Hn).
    rewrite Ho in Ho'. injection Ho' as <-. rewrite He in He'. injection He' as <-.
    exists el. repeat split; try assumption.
    apply normalize_kept in Hn. tauto.
  - intro Hnd. unfold outcome_of in H.
    destruct (searchNearbyCareOSM P W olat olon (start idle)) as [o s'] eqn:E. cbn [fst] in H. subst o.
    apply search_returns in E as (json' & items' & mapped & Ho' & He' & HF & ->).
    rewrite Ho in Ho'. injection Ho' as <-. rewrite He in He'. injection He' as <-.
    rewrite <- firstn_map. apply NoDup_firstn.
    apply (Permutation_NoDup (l := map id (keep mapped))).
    + apply Permutation_map, Permutation_sym, sort_perm.
    + eapply keep_NoDup; eassumption.
Qed.

(** A run of [returned_ids]. *)
Lemma returned_ids_witness :
  map id three_hospitals_found = ["node-2"; "node-1"; "node-3"] /\
  NoDup (map id three_hospitals_found).
Proof.
  split; [reflexivity |].
  eapply (returned_ids small_angle three_hospitals 40 (-75)).
  - reflexivity.
  - reflexivity.
  - vm_compute. reflexivity.
  - vm_compute. repeat constructor; cbn; intuition discriminate.
Defined.

(** On every platform the search of [repeated_node] returns two entries
    with one identifier. *)
Lemma repeated_node_ids (P : platform) :
  exists rs,
    outcome_of (searchNearbyCareOSM P repeated_node 0 0) = Done rs /\
    ~ NoDup (map id rs).
Proof.
  eexists. split; [vm_compute; reflexivity |].
  intro H. cbn [map] in H. apply NoDup_cons_iff in H as [Hnotin _].
  apply Hnotin. left. reflexivity.
Qed.

(** C8, as stated, fails: the identifiers of one search can repeat. *)
Lemma ids_not_always_distinct :
  ~ (forall (P : platform) (W : world) (olat olon : float) (rs : list CareResult),
        outcome_of (searchNearbyCareOSM P W olat olon) = Done rs ->
        NoDup (map id rs)).
Proof.
  intro H. destruct (repeated_node_ids small_angle) as (rs & Hrs & Hdup).
  apply Hdup. apply (H small_angle repeated_node 0%float 0%float rs Hrs).
Qed.

(** C10.  When the body has no [elements] (the body is [null], is not an
    object, lacks the field, or holds [null] there), the search returns the
    empty list and does not throw. *)
Theorem search_without_elements
  (P : platform) (W : world) (olat olon : float) (json : value) (s : machine) :
  overpass W olat olon = Resolves json ->
  is_nullish (opt_get json "elements") = true ->
  searchNearbyCareOSM P W olat olon s = (Done [], logged (FetchOverpass olat olon) s).
Proof.
  intros Ho Hn. unfold searchNearbyCareOSM, bind, await. rewrite Ho.
  unfold nullish_or. rewrite Hn. reflexivity.
Qed.

(** Runs of [search_without_elements]: a [null] body, and a body without
    the field. *)
Lemma search_without_elements_witness :
  outcome_of (searchNearbyCareOSM small_angle (world_of (Resolves VNull)) 40 (-75)) = Done [] /\
  outcome_of (searchNearbyCareOSM small_angle
                (world_of (Resolves (VObj [("remark", VStr "runtime error")]))) 40 (-75)) = Done [].
Proof.
  unfold outcome_of. split.
  - rewrite (search_without_elements small_angle _ 40 (-75) VNull); reflexivity.
  - rewrite (search_without_elements small_angle _ 40 (-75)
               (VObj [("remark", VStr "runtime error")])); reflexivity.
Defined.



(** ** The flows, step by step *)

Section Flows.
Variable P : platform.
Variable W : world.

Lemma reverse_run (rlat rlon : float) (s : machine) :
  reverseGeocodeOSM W rlat rlon s =
  (Done (label_of (nominatim_reverse W rlat rlon)), logged (FetchReverse rlat rlon) s).
Proof.
  unfold reverseGeocodeOSM, try_catch, bind, await, ret, label_of.
  destruct (nominatim_reverse W rlat rlon); reflexivity.
Qed.

Lemma geocode_state (q : string) (s : machine) :
  geocodeOSM P W q s = (outcome_of (geocodeOSM P W q), logged (FetchGeocode q) s).
Proof.
  unfold outcome_of, geocodeOSM, bind, await, getp, ret, throw.
  destruct (nominatim_search W q) as [e | data]; [reflexivity |].
  destruct (negb (truthy (opt_get data "length"))); [reflexivity |].
  destruct (is_nullish (elem0 data)); reflexivity.
Qed.

(** The device-location search always completes; what it leaves on the
    screen is decided by the label and by the outcome of the facility
    search. *)
Lemma run_care_search (rlat rlon : float) (s : machine) :
  runCareSearchFromCoords P W rlat rlon s =
  (Done tt,
   {| ui := after_search (ui s) (label_of (nominatim_reverse W rlat rlon)) CARE_FAILED
              (outcome_of (searchNearbyCareOSM P W rlat rlon));
      calls := calls s ++ [FetchReverse rlat rlon; FetchOverpass rlat rlon] |}).
Proof.
  unfold runCareSearchFromCoords, try_finally, try_catch, careSearchBody.
  unfold bind, setCareLoading, setCareError, setCareResults, setOriginLabel, update.
  cbn [ui calls]. rewrite reverse_run. rewrite search_state.
  unfold logged, after_search. cbn [ui calls snd fst locationStatus originLabel careResults
    careLoading careError locationQuery].
  rewrite <- app_assoc. cbn [app].
  destruct (outcome_of (searchNearbyCareOSM P W rlat rlon)) as [[| r rs] | e]; reflexivity.
Qed.


(** The typed-query flow on a query that is not blank. *)
Lemma typed_search_run (s : machine) :
  trim (locationQuery (ui s)) <> "" ->
  searchTypedQuery P W s =
  (Done tt,
   let q := trim (locationQuery (ui s)) in
   match outcome_of (geocodeOSM P W q) with
   | Thrown e =>
       {| ui := after_geocode (ui s) (message_or SEARCH_FAILED e);
          calls := calls s ++ [FetchGeocode q] |}
   | Done None =>
       {| ui := after_geocode (ui s) (VStr NOT_FOUND);
          calls := calls s ++ [FetchGeocode q] |}
   | Done (Some g) =>
       {| ui := after_search (ui s) (displayName g) SEARCH_FAILED
                  (outcome_of (searchNearbyCareOSM P W (geo_lat g) (geo_lon g)));
          calls := calls s ++ [FetchGeocode q; FetchOverpass (geo_lat g) (geo_lon g)] |}
   end).
Proof.
  intro Hq. unfold searchTypedQuery.
  destruct (String.eqb_spec (trim (locationQuery (ui s))) "") as [E | _]; [contradiction |].
  unfold try_finally, try_catch, typedSearchBody.
  unfold bind, setCareLoading, setCareError, setCareResults, setOriginLabel, update.
  cbn [ui calls]. rewrite geocode_state.
  destruct (outcome_of (geocodeOSM P W (trim (locationQuery (ui s))))) as [[g |] | e].
  - rewrite search_state. unfold logged, after_search.
    cbn [ui calls snd fst locationStatus originLabel careResults careLoading careError locationQuery].
    rewrite <- app_assoc. cbn [app].
    destruct (outcome_of (searchNearbyCareOSM P W (geo_lat g) (geo_lon g))) as [[| r rs] | e];
      reflexivity.
  - reflexivity.
  - reflexivity.
Qed.

End Flows.

(** ** The outcomes of the flows *)



(** C4.  When the geocoding service answers a typed query with no match
    (an empty array), [geocodeOSM] returns [null]; the flow ends, without
    entering its [catch] clause, on the location-not-found message, which
    is not the text of a failed search; and the geocoder call is the only
    call made: the facility search is not invoked. *)
Theorem unknown_location_is_reported (P : platform) (W : world) (s : machine) :
  let q := trim (locationQuery (ui s)) in
  q <> "" ->
  nominatim_search W q = Resolves (VArr []) ->
  outcome_of (geocodeOSM P W q) = Done None /\
  fst (typedSearchBody P W q s) = Done tt /\
  searchTypedQuery P W s =
    (Done tt, {| ui := after_geocode (ui s) (VStr NOT_FOUND);
                 calls := calls s ++ [FetchGeocode q] |}) /\
  NOT_FOUND <> SEARCH_FAILED.
Proof.
  intros q Hq Hs.
  assert (Hg : outcome_of (geocodeOSM P W q) = Done None).
  { unfold outcome_of, geocodeOSM, bind, await. rewrite Hs. reflexivity. }
  split; [exact Hg |]. split; [| split].
  - unfold typedSearchBody.
    unfold bind, setCareLoading, setCareError, setCareResults, setOriginLabel, update.
    rewrite geocode_state, Hg. reflexivity.
  - rewrite typed_search_run by exact Hq. cbv zeta. fold q. rewrite Hg. reflexivity.
  - discriminate.
Qed.

(** A run of [unknown_location_is_reported]. *)
Lemma unknown_location_is_reported_witness :
  searchTypedQuery small_angle three_hospitals (start (typed " zzz-nonexistent ")) =
  (Done tt, {| ui := after_geocode (typed " zzz-nonexistent ") (VStr NOT_FOUND);
               calls := [FetchGeocode "zzz-nonexistent"] |}).
Proof.
  refine (proj1 (proj2 (proj2
    (unknown_location_is_reported small_angle three_hospitals
       (start (typed " zzz-nonexistent ")) _ _)))).
  - discriminate.
  - reflexivity.
Defined.

(** C5.  [reverseGeocodeOSM] never throws.  When the call fails, or the
    body has no display name, its label is "Current location".  In the
    device-location flow ([runCareSearchFromCoords], and
    [requestAndUseLocation] around it), whatever the reverse geocoder
    answers, the flow ends the same way and leaves the same results, the
    same message, the same loading flag and the same calls. *)
Theorem reverse_geocode_is_best_effort
  (P : platform) (W : world) (rlat rlon : float) (s : machine) :
  (exists label,
     reverseGeocodeOSM W rlat rlon s = (Done label, logged (FetchReverse rlat rlon) s)) /\
  (forall e, nominatim_reverse W rlat rlon = Rejects e ->
     fst (reverseGeocodeOSM W rlat rlon s) = Done (VStr "Current location")) /\
  (forall data, nominatim_reverse W rlat rlon = Resolves data ->
     truthy (opt_get data "display_name") = false ->
     fst (reverseGeocodeOSM W rlat rlon s) = Done (VStr "Current location")) /\
  (forall answer,
     let a := runCareSearchFromCoords P W rlat rlon s in
     let b := runCareSearchFromCoords P (with_reverse W answer) rlat rlon s in
     fst a = Done tt /\ fst b = Done tt /\
     careResults (ui (snd a)) = careResults (ui (snd b)) /\
     careError (ui (snd a)) = careError (ui (snd b)) /\
     careLoading (ui (snd a)) = careLoading (ui (snd b)) /\
     calls (snd a) = calls (snd b)) /\
  (forall answer,
     let a := requestAndUseLocation P W s in
     let b := requestAndUseLocation P (with_reverse W answer) s in
     fst a = fst b /\
     locationStatus (ui (snd a)) = locationStatus (ui (snd b)) /\
     careResults (ui (snd a)) = careResults (ui (snd b)) /\
     careError (ui (snd a)) = careError (ui (snd b)) /\
     careLoading (ui (snd a)) = careLoading (ui (snd b)) /\
     calls (snd a) = calls (snd b)).
Proof.
  split; [| split; [| split; [| split]]].
  - eexists. apply reverse_run.
  - intros e He. rewrite reverse_run, He. reflexivity.
  - intros data Hd Hf. rewrite reverse_run, Hd. cbn [fst label_of]. unfold js_or. rewrite Hf. reflexivity.
  - intros answer a b. subst a b. rewrite !run_care_search. cbn [fst snd ui calls].
    assert (Hsame : outcome_of (searchNearbyCareOSM P (with_reverse W answer) rlat rlon) =
                    outcome_of (searchNearbyCareOSM P W rlat rlon)) by reflexivity.
    rewrite Hsame. repeat split; reflexivity.
  - intros answer a b. subst a b.
    unfold requestAndUseLocation, try_catch, bind, await.
    unfold setLocationStatus, setCareError, setCareResults, setOriginLabel, update.
    cbn [permission position with_reverse].
    destruct (permission W) as [e | status]; [repeat split; reflexivity |].
    destruct (negb (String.eqb status "granted")); [repeat split; reflexivity |].
    destruct (position W) as [e | pos]; [repeat split; reflexivity |].
    rewrite !run_care_search. cbn [fst snd ui calls].
    assert (Hsame : outcome_of (searchNearbyCareOSM P (with_reverse W answer) (fst pos) (snd pos)) =
                    outcome_of (searchNearbyCareOSM P W (fst pos) (snd pos))) by reflexivity.
    rewrite Hsame. repeat split; reflexivity.
Qed.

(** ** Signs in binary64 arithmetic *)

Section SpecParity.
Variables prec emax : Z.
Local Open Scope Z_scope.






Lemma SFmul_comm (x y : spec_float) : SFmul prec emax x y = SFmul prec emax y x.
Proof.
  destruct x as [sx | sx | | sx mx ex], y as [sy | sy | | sy my ey]; cbn [SFmul];
    try reflexivity; try (destruct sx, sy; reflexivity).
  rewrite (xorb_comm sx sy), (Pos.mul_comm mx my), (Z.add_comm ex ey). reflexivity.
Qed.



Lemma SFsub_diag (v : spec_float) :
  match v with S754_nan | S754_infinity _ => False | _ => True end ->
  SFsub prec emax v v = S754_zero false.
Proof.
  destruct v as [s | s | | s m e]; try contradiction; intros _; cbn [SFsub].
  - destruct s; reflexivity.
  - cbv zeta. rewrite Z.sub_diag. reflexivity.
Qed.

End SpecParity.

Section Parity.
Local Open Scope float_scope.




Lemma mul_comm (x y : float) : x * y = y * x.
Proof. apply Prim2SF_inj. rewrite !mul_spec. apply SFmul_comm. Qed.










Lemma sub_diag (x : float) : PrimFloat.is_finite x = true -> x - x = 0.
Proof.
  intro H. apply Prim2SF_inj. rewrite sub_spec. change (Prim2SF 0) with (S754_zero false).
  apply SFsub_diag.
  unfold PrimFloat.is_finite in H. apply negb_true_iff, orb_false_iff in H as [Hn Hi].
  rewrite is_nan_spec in Hn. unfold PrimFloat.is_infinity in Hi.
  rewrite eqb_spec, abs_spec in Hi.
  destruct (Prim2SF x) as [s | s | | s m e]; try exact I; try discriminate.
Qed.



End Parity.

(** ** The great-circle distance *)






(** ** No results and failures *)





(** * Further properties of the code

    What the code does beyond the statements of the specification: the
    facility search in closed form, non-finite coordinates, the flows of the
    care card, the wording of the probabilities and the photo page. *)

(** ** The facility search in closed form *)

Section SearchClosedForm.
Variable P : platform.
Variables olat olon : float.






End SearchClosedForm.

Section SortedLists.





End SortedLists.






Lemma normalize_name (P : platform) (olat olon : float) (el : value) (r : CareResult) :
  outcome_of (normalize P olat olon el) = Done (Some r) -> truthy (name r) = true.
Proof.
  unfold outcome_of, normalize, bind, getp, ret, throw.
  destruct (is_nullish el); [discriminate |]. cbn [fst].
  destruct (nullish_or (get el "lat") (opt_get (get el "center") "lat")); try discriminate.
  destruct (nullish_or (get el "lon") (opt_get (get el "center") "lon")); try discriminate.
  intro H. injection H as <-. cbn [name]. unfold js_or.
  set (tags := nullish_or (get el "tags") (VObj [])).
  destruct (truthy (get tags "name")) eqn:H1; cbv iota.
  - rewrite H1. exact H1.
  - destruct (truthy (get tags "name:en")) eqn:H2; [exact H2 |].
    destruct (strict_eq_str (get tags "amenity") "hospital"); reflexivity.
Qed.

(** X4.  Every entry [searchNearbyCareOSM] returns has a truthy name: a
    missing or empty [name] tag falls through to [name:en] and then to
    "Hospital" or "Clinic", so no result is shown without a name. *)
Theorem returned_names_are_not_empty
  (P : platform) (W : world) (olat olon : float) (rs : list CareResult) :
  outcome_of (searchNearbyCareOSM P W olat olon) = Done rs ->
  Forall (fun r => truthy (name r) = true /\ name r <> VStr "") rs.
Proof.
  intro H. apply Forall_forall. intros r Hr.
  destruct (returned_from_element P W olat olon rs r H Hr) as (json & items & el & _ & _ & _ & Hn).
  apply normalize_name in Hn. split; [exact Hn |].
  intro E. rewrite E in Hn. discriminate.
Qed.

Lemma returned_names_are_not_empty_witness :
  Forall (fun r => truthy (name r) = true /\ name r <> VStr "") three_hospitals_found.
Proof.
  apply (returned_names_are_not_empty small_angle three_hospitals 40 (-75)).
  vm_compute. reflexivity.
Defined.



(** ** Coordinates that are not finite *)

Section NonFinite.
Local Open Scope float_scope.

Lemma nan_eq (x : float) : PrimFloat.is_nan x = true -> x = PrimFloat.nan.
Proof.
  rewrite is_nan_spec. intro H. apply Prim2SF_inj.
  destruct (Prim2SF x); try discriminate. reflexivity.
Qed.

Lemma is_infinity_spec (x : float) :
  PrimFloat.is_infinity x = match Prim2SF x with S754_infinity _ => true | _ => false end.
Proof.
  unfold PrimFloat.is_infinity. rewrite eqb_spec, abs_spec.
  change (Prim2SF PrimFloat.infinity) with (S754_infinity false).
  destruct (Prim2SF x) as [s | s | | s m e]; try destruct s; reflexivity.
Qed.

Lemma wild_spec (x : float) :
  PrimFloat.is_nan x || PrimFloat.is_infinity x = sf_wild (Prim2SF x).
Proof.
  rewrite is_nan_spec, is_infinity_spec. destruct (Prim2SF x); reflexivity.
Qed.

Lemma not_finite_wild (x : float) :
  PrimFloat.is_finite x = false -> sf_wild (Prim2SF x) = true.
Proof.
  unfold PrimFloat.is_finite. rewrite <- wild_spec.
  destruct (PrimFloat.is_nan x || PrimFloat.is_infinity x); [reflexivity | discriminate].
Qed.

Lemma sub_wild_l (x y : float) : sf_wild (Prim2SF x) = true -> sf_wild (Prim2SF (x - y)) = true.
Proof.
  rewrite sub_spec. destruct (Prim2SF x) as [| sx | |]; try discriminate; intros _;
    destruct (Prim2SF y) as [| sy | |]; cbn; try reflexivity.
  destruct sx, sy; reflexivity.
Qed.

Lemma sub_wild_r (x y : float) : sf_wild (Prim2SF y) = true -> sf_wild (Prim2SF (x - y)) = true.
Proof.
  rewrite sub_spec. destruct (Prim2SF y) as [| sy | |]; try discriminate; intros _;
    destruct (Prim2SF x) as [| sx | |]; cbn; try reflexivity.
  destruct sx, sy; reflexivity.
Qed.

Lemma toRad_wild (P : platform) (x : float) :
  sf_wild (Prim2SF x) = true -> sf_wild (Prim2SF (toRad (A := float_arith P) x)) = true.
Proof.
  unfold toRad. cbn [float_arith lit mul div Math_PI]. rewrite div_spec, mul_spec.
  change (Prim2SF JSMath.PI) with (S754_finite false 7074237752028440 (-51)).
  change (Prim2SF 180) with (S754_finite false 6333186975989760 (-45)).
  destruct (Prim2SF x); try discriminate; reflexivity.
Qed.

Lemma half_wild (x : float) : sf_wild (Prim2SF x) = true -> sf_wild (Prim2SF (x / 2)) = true.
Proof.
  rewrite div_spec. change (Prim2SF 2) with (S754_finite false 4503599627370496 (-51)).
  destruct (Prim2SF x); try discriminate; reflexivity.
Qed.

Lemma sin_wild (P : platform) (x : float) : sf_wild (Prim2SF x) = true -> JSMath.sin P x = PrimFloat.nan.
Proof. intro H. unfold JSMath.sin. rewrite wild_spec, H. reflexivity. Qed.

Lemma add_nan_l (y : float) : PrimFloat.nan + y = PrimFloat.nan.
Proof. apply Prim2SF_inj. rewrite add_spec. reflexivity. Qed.

Lemma add_nan_r (x : float) : x + PrimFloat.nan = PrimFloat.nan.
Proof. apply Prim2SF_inj. rewrite add_spec. cbn. destruct (Prim2SF x); reflexivity. Qed.

Lemma mul_nan_r (x : float) : x * PrimFloat.nan = PrimFloat.nan.
Proof. apply Prim2SF_inj. rewrite mul_spec. cbn. destruct (Prim2SF x); reflexivity. Qed.

Lemma div_nan_l (y : float) : PrimFloat.nan / y = PrimFloat.nan.
Proof. apply Prim2SF_inj. rewrite div_spec. reflexivity. Qed.

(** The distance once one of the two half-chord sines is NaN. *)
Lemma haversine_nan_chord (P : platform) (c s1 s2 : float) :
  s1 = PrimFloat.nan \/ s2 = PrimFloat.nan ->
  2 * 6371000 * JSMath.asin P (PrimFloat.sqrt (JSMath.square P s1 + c * JSMath.square P s2)) = PrimFloat.nan.
Proof.
  intros [-> | ->].
  - change (JSMath.square P PrimFloat.nan) with PrimFloat.nan. rewrite add_nan_l.
    change (PrimFloat.sqrt PrimFloat.nan) with PrimFloat.nan. change (JSMath.asin P PrimFloat.nan) with PrimFloat.nan. apply mul_nan_r.
  - change (JSMath.square P PrimFloat.nan) with PrimFloat.nan. rewrite mul_nan_r, add_nan_r.
    change (PrimFloat.sqrt PrimFloat.nan) with PrimFloat.nan. change (JSMath.asin P PrimFloat.nan) with PrimFloat.nan. apply mul_nan_r.
Qed.

Lemma miles_of_non_finite (P : platform) (lat1 lon1 lat2 lon2 : float) :
  PrimFloat.is_finite lat1 && PrimFloat.is_finite lon1 &&
  PrimFloat.is_finite lat2 && PrimFloat.is_finite lon2 = false ->
  haversineMeters (A := float_arith P) lat1 lon1 lat2 lon2 = PrimFloat.nan /\
  toMiles (A := float_arith P) (haversineMeters (A := float_arith P) lat1 lon1 lat2 lon2) = PrimFloat.nan.
Proof.
  intro H.
  assert (Hh : haversineMeters (A := float_arith P) lat1 lon1 lat2 lon2 = PrimFloat.nan).
  { unfold haversineMeters. cbn [float_arith lit add sub mul div square Math_sin Math_asin Math_sqrt Math_cos].
    apply haversine_nan_chord.
    rewrite !andb_false_iff in H. destruct H as [[[H | H] | H] | H]; apply not_finite_wild in H.
    - left. apply sin_wild, half_wild, toRad_wild, sub_wild_r, H.
    - right. apply sin_wild, half_wild, toRad_wild, sub_wild_r, H.
    - left. apply sin_wild, half_wild, toRad_wild, sub_wild_l, H.
    - right. apply sin_wild, half_wild, toRad_wild, sub_wild_l, H. }
  split; [exact Hh |].
  rewrite Hh. unfold toMiles. cbn [float_arith lit div]. apply div_nan_l.
Qed.



End NonFinite.

(** X6.  On every platform, a distance from or to a point with a
    coordinate that is NaN or infinite is NaN, in meters and in miles: the
    NaN reaches the result through the sine of the half difference. *)
Theorem distance_of_non_finite_is_nan (P : platform) (lat1 lon1 lat2 lon2 : float) :
  PrimFloat.is_finite lat1 && PrimFloat.is_finite lon1 &&
  PrimFloat.is_finite lat2 && PrimFloat.is_finite lon2 = false ->
  haversineMeters (A := float_arith P) lat1 lon1 lat2 lon2 = PrimFloat.nan /\
  toMiles (A := float_arith P) (haversineMeters (A := float_arith P) lat1 lon1 lat2 lon2) = PrimFloat.nan.
Proof. apply miles_of_non_finite. Qed.

Lemma distance_of_non_finite_is_nan_witness :
  haversineMeters (A := float_arith small_angle) 40%float (-75)%float PrimFloat.infinity (-75)%float = PrimFloat.nan /\
  toMiles (A := float_arith small_angle)
    (haversineMeters (A := float_arith small_angle) 40%float (-75)%float PrimFloat.infinity (-75)%float) = PrimFloat.nan.
Proof.
  apply (distance_of_non_finite_is_nan small_angle 40%float (-75)%float PrimFloat.infinity (-75)%float).
  reflexivity.
Defined.



(** ** The distance in exact arithmetic *)

Section RealGeodesy.
Local Open Scope R_scope.



End RealGeodesy.


(** ** The geocoder *)




(** ** The flows of the care card *)

Section FlowExtras.
Variable P : platform.
Variable W : world.

(** The device-location flow, case by case. *)
Lemma request_run (s : machine) :
  requestAndUseLocation P W s =
  (Done tt,
   match permission W with
   | Rejects e =>
       {| ui := with_error (reset_search (ui s) StatusError) (message_or NO_LOCATION e);
          calls := calls s ++ [RequestPermission] |}
   | Resolves status =>
       if String.eqb status "granted" then
         match position W with
         | Rejects e =>
             {| ui := with_error (reset_search (ui s) StatusError) (message_or NO_LOCATION e);
                calls := calls s ++ [RequestPermission; GetPosition] |}
         | Resolves pos =>
             {| ui := after_search (reset_search (ui s) StatusGranted)
                        (label_of (nominatim_reverse W (fst pos) (snd pos))) CARE_FAILED
                        (outcome_of (searchNearbyCareOSM P W (fst pos) (snd pos)));
                calls := calls s ++ [RequestPermission; GetPosition;
                                     FetchReverse (fst pos) (snd pos);
                                     FetchOverpass (fst pos) (snd pos)] |}
         end
       else
         {| ui := with_error (reset_search (ui s) StatusDenied) (VStr PERMISSION_DENIED);
            calls := calls s ++ [RequestPermission] |}
   end).
Proof.
  unfold requestAndUseLocation, try_catch, bind, await.
  unfold setLocationStatus, setCareError, setCareResults, setOriginLabel, update, logged.
  cbn [ui calls].
  destruct (permission W) as [e | status]; [reflexivity |].
  destruct (String.eqb status "granted"); cbn [negb]; [| reflexivity].
  cbn [ui calls].
  destruct (position W) as [e | pos].
  - cbn [ui calls]. rewrite <- app_assoc. reflexivity.
  - rewrite run_care_search. cbn [ui calls]. rewrite <- !app_assoc. reflexivity.
Qed.

Lemma typed_blank_run (s : machine) :
  trim (locationQuery (ui s)) = "" ->
  searchTypedQuery P W s =
  (Done tt, {| ui := with_error (ui s) (VStr VALIDATION); calls := calls s |}).
Proof. intro Hq. unfold searchTypedQuery. rewrite Hq. reflexivity. Qed.



End FlowExtras.

(** X10.  The three handlers of the care card never throw, whatever the
    services and the device answer; the two that set the loading flag have
    cleared it when they end, and a run that never set it leaves it as it
    was. *)
Theorem handlers_always_complete (P : platform) (W : world) (s : machine) :
  (fst (requestAndUseLocation P W s) = Done tt /\
   (careLoading (ui (snd (requestAndUseLocation P W s))) = false \/
    careLoading (ui (snd (requestAndUseLocation P W s))) = careLoading (ui s))) /\
  (forall rlat rlon,
     fst (runCareSearchFromCoords P W rlat rlon s) = Done tt /\
     careLoading (ui (snd (runCareSearchFromCoords P W rlat rlon s))) = false) /\
  (fst (searchTypedQuery P W s) = Done tt /\
   (trim (locationQuery (ui s)) <> "" ->
    careLoading (ui (snd (searchTypedQuery P W s))) = false) /\
   (trim (locationQuery (ui s)) = "" ->
    careLoading (ui (snd (searchTypedQuery P W s))) = careLoading (ui s))).
Proof.
  split; [| split].
  - rewrite request_run. cbn [fst snd]. split; [reflexivity |].
    destruct (permission W) as [e | status]; [right; reflexivity |].
    destruct (String.eqb status "granted"); [| right; reflexivity].
    destruct (position W) as [e | pos]; [right | left]; reflexivity.
  - intros rlat rlon. rewrite run_care_search. split; reflexivity.
  - destruct (String.eqb_spec (trim (locationQuery (ui s))) "") as [Hq | Hq].
    + rewrite (typed_blank_run P W s Hq). cbn [fst snd ui]. repeat split; try reflexivity.
      intro H. contradiction.
    + rewrite (typed_search_run P W s Hq). cbn [fst snd]. repeat split.
      * intros _. cbv zeta.
        destruct (outcome_of (geocodeOSM P W (trim (locationQuery (ui s))))) as [[g |] | e];
          reflexivity.
      * intro H. contradiction.
Qed.


(** X12.  When the permission request resolves with a status other than
    "granted", the device-location flow ends there: the status is "denied",
    the label and the results are cleared, the message is the
    permission-denied text, and neither the position nor any network service
    is asked. *)
Theorem denied_permission_stops_the_flow
  (P : platform) (W : world) (s : machine) (status : string) :
  permission W = Resolves status ->
  status <> "granted" ->
  requestAndUseLocation P W s =
  (Done tt,
   {| ui := with_error (reset_search (ui s) StatusDenied) (VStr PERMISSION_DENIED);
      calls := calls s ++ [RequestPermission] |}).
Proof.
  intros Hp Hs. rewrite request_run, Hp.
  destruct (String.eqb_spec status "granted"); [contradiction | reflexivity].
Qed.

Lemma denied_permission_stops_the_flow_witness :
  requestAndUseLocation small_angle permission_refused (start idle) =
  (Done tt,
   {| ui := with_error (reset_search idle StatusDenied) (VStr PERMISSION_DENIED);
      calls := [RequestPermission] |}).
Proof.
  apply (denied_permission_stops_the_flow small_angle permission_refused (start idle) "denied").
  - reflexivity.
  - discriminate.
Defined.

(** X13.  The location status the device-location flow leaves depends only
    on the permission and the position: "error" when either request fails,
    "denied" when the status is not "granted", "granted" otherwise, whatever
    the network services then answer; the two search flows never change
    it. *)
Theorem location_status_ignores_the_network (P : platform) (W : world) (s : machine) :
  locationStatus (ui (snd (requestAndUseLocation P W s))) =
    match permission W with
    | Rejects _ => StatusError
    | Resolves status =>
        if String.eqb status "granted" then
          match position W with
          | Rejects _ => StatusError
          | Resolves _ => StatusGranted
          end
        else StatusDenied
    end /\
  (forall rlat rlon,
     locationStatus (ui (snd (runCareSearchFromCoords P W rlat rlon s))) = locationStatus (ui s)) /\
  locationStatus (ui (snd (searchTypedQuery P W s))) = locationStatus (ui s).
Proof.
  split; [| split].
  - rewrite request_run. cbn [snd].
    destruct (permission W) as [e | status]; [reflexivity |].
    destruct (String.eqb status "granted"); [| reflexivity].
    destruct (position W) as [e | pos]; reflexivity.
  - intros. rewrite run_care_search. reflexivity.
  - destruct (String.eqb_spec (trim (locationQuery (ui s))) "") as [Hq | Hq].
    + rewrite (typed_blank_run P W s Hq). reflexivity.
    + rewrite (typed_search_run P W s Hq). cbn [snd]. cbv zeta.
      destruct (outcome_of (geocodeOSM P W (trim (locationQuery (ui s))))) as [[g |] | e];
        reflexivity.
Qed.



(** X15.  "Clear results" empties the results, the message, the label and
    the query box without any call; pressing "Search this ZIP/address" next
    only shows the validation message, again without any call. *)
Theorem search_after_clear_is_rejected (P : platform) (W : world) (s : machine) :
  fst (clearResults s) = Done tt /\
  ui (snd (clearResults s)) =
    {| locationStatus := locationStatus (ui s); originLabel := VStr ""; careResults := [];
       careLoading := careLoading (ui s); careError := VStr ""; locationQuery := "" |} /\
  calls (snd (clearResults s)) = calls s /\
  searchTypedQuery P W (snd (clearResults s)) =
    (Done tt,
     {| ui := {| locationStatus := locationStatus (ui s); originLabel := VStr "";
                 careResults := []; careLoading := careLoading (ui s);
                 careError := VStr VALIDATION; locationQuery := "" |};
        calls := calls s |}).
Proof. repeat split; reflexivity. Qed.



(** ** Stages, probabilities and wording *)

Section Stages.

Lemma STAGES_complete (s : StageLabel) : In s STAGES.
Proof. destruct s; cbn; tauto. Qed.

Lemma STAGES_NoDup : NoDup STAGES.
Proof. repeat constructor; cbn; intuition discriminate. Qed.

(** [insert] keeps a list sorted by any order the comparator decides. *)
Lemma insert_sorted_by {A} (cmp : A -> A -> float) (R : A -> A -> Prop) (x : A) (t : list A) :
  (forall a b c, R a b -> R b c -> R a c) ->
  (forall h, (0 <? cmp x h)%float = true -> R h x) ->
  (forall h, (0 <? cmp x h)%float = false -> R x h) ->
  StronglySorted R t -> StronglySorted R (insert cmp x t).
Proof.
  intros Htrans Hlt Hge. induction t as [| h t IH]; intro Hs; cbn [insert].
  - repeat constructor.
  - inversion Hs as [| ? ? Hs' Hf]; subst.
    destruct (0 <? cmp x h)%float eqn:E.
    + constructor; [apply IH, Hs' |].
      apply (Permutation_Forall (Permutation_sym (insert_perm cmp x t))).
      constructor; [apply Hlt, E | exact Hf].
    + constructor; [exact Hs |]. constructor; [apply Hge, E |].
      eapply Forall_impl; [| exact Hf]. intros a Ha. eapply Htrans; [apply Hge, E | exact Ha].
Qed.

Variable stageProbs : StageLabel -> float.
Hypothesis no_nan : forall s, PrimFloat.is_nan (stageProbs s) = false.

Lemma ranked_falling : StronglySorted (falling stageProbs) (ranked stageProbs).
Proof.
  unfold ranked. induction STAGES as [| x l IH]; cbn [sort fold_right].
  - constructor.
  - fold (sort (fun a b => (stageProbs b - stageProbs a)%float) l).
    apply insert_sorted_by; [| | | exact IH]; unfold falling.
    + intros a b c. rewrite !leb_rank by apply no_nan. rewrite !Z.leb_le. lia.
    + intros h. rewrite pos_sub_rank, leb_rank by apply no_nan. rewrite Z.ltb_lt, Z.leb_le. lia.
    + intros h. rewrite pos_sub_rank, leb_rank by apply no_nan. rewrite Z.ltb_ge, Z.leb_le. lia.
Qed.

End Stages.

(** X16.  For every table of probabilities without a NaN, [ranked] is a
    rearrangement of the six stages in falling order of probability, and
    [topStage] is a stage no other stage is more probable than. *)
Theorem top_stage_is_most_probable (stageProbs : StageLabel -> float) :
  (forall s, PrimFloat.is_nan (stageProbs s) = false) ->
  Permutation (ranked stageProbs) STAGES /\
  StronglySorted (falling stageProbs) (ranked stageProbs) /\
  exists top, topStage stageProbs = Some top /\
    forall s, (stageProbs s <=? stageProbs top)%float = true.
Proof.
  intro Hn. pose proof (ranked_falling stageProbs Hn) as Hs.
  pose proof (sort_perm (fun a b => (stageProbs b - stageProbs a)%float) STAGES) as Hp.
  fold (ranked stageProbs) in Hp.
  split; [exact Hp |]. split; [exact Hs |].
  unfold topStage. destruct (ranked stageProbs) as [| top rest] eqn:E.
  - apply Permutation_nil in Hp. discriminate.
  - exists top. split; [reflexivity |]. intro s.
    assert (Hin : In s (top :: rest)) by (apply (Permutation_in _ (Permutation_sym Hp)), STAGES_complete).
    destruct Hin as [<- | Hin].
    + rewrite leb_rank by apply Hn. apply Z.leb_refl.
    + inversion Hs as [| ? ? _ Hf]; subst. rewrite Forall_forall in Hf. apply Hf, Hin.
Qed.

Lemma top_stage_is_most_probable_witness :
  topStage PROTO_PROBS = Some PROTO_PRED_STAGE /\
  forall s, (PROTO_PROBS s <=? PROTO_PROBS PROTO_PRED_STAGE)%float = true.
Proof.
  destruct (top_stage_is_most_probable PROTO_PROBS) as (_ & _ & top & Ht & Hmax).
  - intros []; reflexivity.
  - assert (E : top = PROTO_PRED_STAGE).
    { assert (H : Some top = topStage PROTO_PROBS) by (symmetry; exact Ht).
      vm_compute in H. injection H as ->. reflexivity. }
    rewrite <- E. split; [exact Ht | exact Hmax].
Defined.

Section Wording.

Lemma geq_rank (p c : float) :
  PrimFloat.is_nan p = false -> PrimFloat.is_nan c = false ->
  geq p c = (rank c <=? rank p)%Z.
Proof. intros Hp Hc. unfold geq. apply leb_rank; assumption. Qed.

Lemma geq_nan (p c : float) : PrimFloat.is_nan p = true -> geq p c = false.
Proof.
  unfold geq. rewrite is_nan_spec, leb_spec. intro H.
  destruct (Prim2SF p); try discriminate. destruct (Prim2SF c); reflexivity.
Qed.

Lemma leb_not_nan (p q : float) :
  (p <=? q)%float = true -> PrimFloat.is_nan p = false /\ PrimFloat.is_nan q = false.
Proof.
  rewrite !is_nan_spec, leb_spec.
  destruct (Prim2SF p), (Prim2SF q); cbn; intro H; try discriminate; split; reflexivity.
Qed.

Lemma thresholds :
  (rank 0.2 < rank 0.4 /\ rank 0.4 < rank 0.5 /\ rank 0.5 < rank 0.7 /\
   rank 0.7 < rank 0.85 /\ rank 0.85 < rank 0.95)%Z.
Proof.
  repeat split; apply Z.ltb_lt; (rewrite <- ltb_rank; reflexivity).
Qed.

End Wording.

Ltac by_thresholds p q :=
  rewrite ?(geq_rank p), ?(geq_rank q) by (assumption || reflexivity);
  pose proof thresholds as (T1 & T2 & T3 & T4 & T5);
  repeat match goal with
         | |- context [(?a <=? ?b)%Z] => destruct (Z.leb_spec a b)
         end; try lia; cbn; try lia; try reflexivity; try discriminate.

(** X17.  The wording follows the probability: when [p <= q], the
    confidence tier of [q] is at least as strong as that of [p], and so is
    the likelihood label. *)
Theorem wording_is_monotone (p q : float) :
  (p <=? q)%float = true ->
  (tier_level (label (confidenceTierFromTop p)) <= tier_level (label (confidenceTierFromTop q)))%nat /\
  (likelihood_level (likelihoodLabel p) <= likelihood_level (likelihoodLabel q))%nat.
Proof.
  intro H. destruct (leb_not_nan p q H) as [Hp Hq].
  rewrite leb_rank in H by assumption. apply Z.leb_le in H.
  unfold confidenceTierFromTop, likelihoodLabel.
  split; by_thresholds p q.
Qed.

Lemma wording_is_monotone_witness :
  (tier_level (label (confidenceTierFromTop 0.73)) <= tier_level (label (confidenceTierFromTop 0.9)))%nat /\
  (likelihood_level (likelihoodLabel 0.73) <= likelihood_level (likelihoodLabel 0.9))%nat.
Proof. apply (wording_is_monotone 0.73 0.9). reflexivity. Defined.

(** X18.  The two wordings disagree on their names: a probability whose
    confidence tier reads "Most likely" (0.7 up to 0.85) has the likelihood
    label "Likely", and one whose likelihood label reads "Most likely" has
    the tier "Very likely" or "Almost certain".  So the summary line and the
    stage tab of the top stage never both say "Most likely". *)
Theorem most_likely_is_two_bands (p : float) :
  (label (confidenceTierFromTop p) = "Most likely" -> likelihoodLabel p = "Likely") /\
  (likelihoodLabel p = "Most likely" ->
   label (confidenceTierFromTop p) = "Very likely" \/
   label (confidenceTierFromTop p) = "Almost certain").
Proof.
  unfold confidenceTierFromTop, likelihoodLabel.
  destruct (PrimFloat.is_nan p) eqn:Hp.
  - rewrite !(geq_nan p) by exact Hp. split; discriminate.
  - rewrite !(geq_rank p) by (assumption || reflexivity).
    pose proof thresholds as (T1 & T2 & T3 & T4 & T5).
    repeat match goal with
           | |- context [(?a <=? ?b)%Z] => destruct (Z.leb_spec a b); try (exfalso; lia)
           end;
      cbn [label]; (split; intro Hw; first [discriminate Hw | reflexivity | auto]).
Qed.

(** X19.  The percentage shown can leave the range of the tier hint shown
    beside it: at each of the boundaries 95, 85, 70 and 50 some probability
    is displayed as that percentage and still has the tier below, because
    [pct] rounds and the tier does not. *)
Theorem shown_percentage_can_leave_the_hint :
  (exists p, pct p = 95%float /\ confidenceTierFromTop p = {| label := "Very likely"; hint := "85–94%" |}) /\
  (exists p, pct p = 85%float /\ confidenceTierFromTop p = {| label := "Most likely"; hint := "70–84%" |}) /\
  (exists p, pct p = 70%float /\ confidenceTierFromTop p = {| label := "Possible"; hint := "50–69%" |}) /\
  (exists p, pct p = 50%float /\ confidenceTierFromTop p = {| label := "Uncertain"; hint := "<50%" |}).
Proof.
  split; [exists 0.945%float | split; [exists 0.845%float | split; [exists 0.695%float | exists 0.495%float]]];
    split; vm_compute; reflexivity.
Qed.

Section SpecRounding.
Local Open Scope Z_scope.
Variables prec emax : Z.

Lemma shr_fexp_nonneg (m e : Z) (l : location) :
  0 <= m -> 0 <= shr_m (fst (shr_fexp prec emax m e l)).
Proof.
  intro Hm. unfold shr_fexp, shr.
  destruct (SpecFloat.fexp prec emax (Zdigits2 m + e) - e) as [| n | n]; cbn [fst].
  - rewrite shr_record_of_loc_m. exact Hm.
  - rewrite iter_shr_1_m by (rewrite shr_record_of_loc_m; exact Hm).
    rewrite shr_record_of_loc_m. apply Z.div_pos; [exact Hm | apply Z.pow_pos_nonneg; lia].
  - rewrite shr_record_of_loc_m. exact Hm.
Qed.

Lemma binary_round_aux_not_nan (s : bool) (m e : Z) (l : location) :
  0 <= m -> sf_is_nan (binary_round_aux prec emax s m e l) = false.
Proof.
  intro Hm. unfold binary_round_aux.
  pose proof (shr_fexp_nonneg m e l Hm) as H1.
  destruct (shr_fexp prec emax m e l) as [mrs' e']. cbn [fst] in H1.
  pose proof (round_nearest_even_ge (shr_m mrs') (loc_of_shr_record mrs')) as H2.
  assert (H3 : 0 <= round_nearest_even (shr_m mrs') (loc_of_shr_record mrs')) by lia.
  pose proof (shr_fexp_nonneg _ e' loc_Exact H3) as H4.
  destruct (shr_fexp prec emax (round_nearest_even (shr_m mrs') (loc_of_shr_record mrs')) e' loc_Exact)
    as [mrs'' e'']. cbn [fst] in H4.
  destruct (shr_m mrs'') as [| p | p]; [reflexivity | | lia].
  destruct (e'' <=? emax - prec); reflexivity.
Qed.

Lemma SFmul_finite_not_nan (x : spec_float) (s : bool) (m : positive) (e : Z) :
  sf_is_nan x = false -> sf_is_nan (SFmul prec emax x (S754_finite s m e)) = false.
Proof.
  destruct x as [sx | sx | | sx mx ex]; intro H; try discriminate; cbn [SFmul]; try reflexivity.
  apply binary_round_aux_not_nan. lia.
Qed.

End SpecRounding.

Section Clamp.

Lemma mul_nan_l (x y : float) : PrimFloat.is_nan x = true -> PrimFloat.is_nan (x * y) = true.
Proof.
  rewrite !is_nan_spec, mul_spec. intro H. destruct (Prim2SF x); try discriminate. reflexivity.
Qed.

Lemma mul_100_not_nan (x : float) :
  PrimFloat.is_nan x = false -> PrimFloat.is_nan (x * 100) = false.
Proof.
  rewrite !is_nan_spec, mul_spec. intro H.
  change (Prim2SF 100) with (S754_finite false 7036874417766400 (-46)).
  apply SFmul_finite_not_nan, H.
Qed.

Lemma Math_max_rank (a b : float) :
  PrimFloat.is_nan a = false -> PrimFloat.is_nan b = false ->
  PrimFloat.is_nan (Math_max a b) = false /\ rank (Math_max a b) = Z.max (rank a) (rank b).
Proof.
  intros Ha Hb. unfold Math_max. rewrite Ha, Hb. cbn [orb].
  rewrite !ltb_rank by assumption.
  destruct (Z.ltb_spec (rank a) (rank b)); [split; [assumption | lia] |].
  destruct (Z.ltb_spec (rank b) (rank a)); [split; [assumption | lia] |].
  destruct (PrimFloat.is_zero a && PrimFloat.get_sign a); split; try assumption; lia.
Qed.

Lemma Math_min_rank (a b : float) :
  PrimFloat.is_nan a = false -> PrimFloat.is_nan b = false ->
  PrimFloat.is_nan (Math_min a b) = false /\ rank (Math_min a b) = Z.min (rank a) (rank b).
Proof.
  intros Ha Hb. unfold Math_min. rewrite Ha, Hb. cbn [orb].
  rewrite !ltb_rank by assumption.
  destruct (Z.ltb_spec (rank a) (rank b)); [split; [assumption | lia] |].
  destruct (Z.ltb_spec (rank b) (rank a)); [split; [assumption | lia] |].
  destruct (PrimFloat.is_zero a && negb (PrimFloat.get_sign a)); split; try assumption; lia.
Qed.

Lemma pct_nan (p : float) : PrimFloat.is_nan p = true -> PrimFloat.is_nan (pct p) = true.
Proof.
  intro H. pose proof (mul_nan_l p 100 H) as Hm. unfold pct, Math_round.
  rewrite is_nan_spec in Hm. destruct (Prim2SF (p * 100)) eqn:E; try discriminate.
  rewrite is_nan_spec, E. reflexivity.
Qed.

Lemma bar_width_nan (p : float) : PrimFloat.is_nan p = true -> PrimFloat.is_nan (barWidth p) = true.
Proof.
  intro H. unfold barWidth, Math_max. rewrite (mul_nan_l p 100 H), orb_true_r.
  unfold Math_min. rewrite orb_true_r. reflexivity.
Qed.

End Clamp.

(** X20.  For every probability that is not NaN, however far outside
    [0, 1], the width of the bar is a percentage between 0 and 100. *)
Theorem bar_width_is_clamped (topP : float) :
  PrimFloat.is_nan topP = false ->
  (0 <=? barWidth topP)%float = true /\ (barWidth topP <=? 100)%float = true.
Proof.
  unfold barWidth. intro H.
  pose proof (mul_100_not_nan topP H) as Hm.
  destruct (Math_max_rank 0 (topP * 100) eq_refl Hm) as [Hn Hr].
  destruct (Math_min_rank 100 _ eq_refl Hn) as [Hn' Hr'].
  rewrite !leb_rank by (assumption || reflexivity). rewrite !Z.leb_le, Hr', Hr.
  assert (H100 : (rank 0 < rank 100)%Z) by (apply Z.ltb_lt; rewrite <- ltb_rank; reflexivity).
  change (rank 0) with 0%Z in *. lia.
Qed.

Lemma bar_width_is_clamped_witness :
  (0 <=? barWidth 1.5)%float = true /\ (barWidth 1.5 <=? 100)%float = true /\
  barWidth 1.5 = 100%float /\ barWidth (-3) = 0%float.
Proof.
  destruct (bar_width_is_clamped 1.5 eq_refl) as [H0 H1].
  split; [exact H0 |]. split; [exact H1 |]. split; reflexivity.
Defined.

(** X21.  A NaN probability is worded as the least likely one and shown as
    NaN: the tier is "Uncertain", the likelihood label "Highly unlikely",
    the percentage NaN and the width of the bar NaN. *)
Theorem nan_probability_is_shown_as_least_likely (p : float) :
  PrimFloat.is_nan p = true ->
  confidenceTierFromTop p = {| label := "Uncertain"; hint := "<50%" |} /\
  likelihoodLabel p = "Highly unlikely" /\
  PrimFloat.is_nan (pct p) = true /\
  PrimFloat.is_nan (barWidth p) = true.
Proof.
  intro H. unfold confidenceTierFromTop, likelihoodLabel.
  rewrite !(geq_nan p) by exact H.
  split; [reflexivity |]. split; [reflexivity |]. split; [apply pct_nan, H | apply bar_width_nan, H].
Qed.

Lemma nan_probability_is_shown_as_least_likely_witness :
  confidenceTierFromTop PrimFloat.nan = {| label := "Uncertain"; hint := "<50%" |} /\
  likelihoodLabel PrimFloat.nan = "Highly unlikely" /\
  PrimFloat.is_nan (pct PrimFloat.nan) = true /\
  PrimFloat.is_nan (barWidth PrimFloat.nan) = true.
Proof. apply (nan_probability_is_shown_as_least_likely PrimFloat.nan). reflexivity. Defined.

Section Guidance.

Lemma nodup_fix (l : list string) : nodup string_dec l = l -> NoDup l.
Proof. intro H. rewrite <- H. apply NoDup_nodup. Qed.

End Guidance.

(** X22.  For every stage the guidance is at least one line of advice
    followed by the disclaimer, which is always the last bullet; and no two
    bullets of a stage are the same text, so the bullets are distinct as
    the list keys they are rendered under. *)
Theorem guidance_bullets (stage : StageLabel) :
  exists advice, bullets (getGuidance stage) = advice ++ [disclaimer] /\
    advice <> [] /\ NoDup (bullets (getGuidance stage)).
Proof.
  exists (removelast (bullets (getGuidance stage))).
  destruct stage; (split; [reflexivity | split; [discriminate | ]]).
  all: (apply nodup_fix; vm_compute; reflexivity).
Qed.

(** X23.  For every stage the glow of the accent is the border colour at
    opacity 0.25 (the [rgba] of the border's [#RRGGBB]), and the six border
    colours are pairwise different, so the accent tells the selected stage
    apart. *)
Theorem accent_glow_matches_border :
  (forall stage, exists c,
     rgb_of_hex (border (getStageAccent stage)) = Some c /\
     glow (getStageAccent stage) = rgba_quarter c) /\
  NoDup (map (fun stage => border (getStageAccent stage)) STAGES).
Proof.
  split.
  - intros []; (eexists; split; [vm_compute; reflexivity | vm_compute; reflexivity]).
  - apply nodup_fix. vm_compute. reflexivity.
Qed.

(** ** The photo page *)

Section PageSession.
Variable P : platform.

Lemma handle_photo (s : page) (e : press) :
  photoUri (handle P s e) = match chosen e with Some u => Some u | None => photoUri s end.
Proof.
  destruct e as [D | D |]; cbn [handle chosen].
  - unfold takePhoto.
    destruct (camera_permission D) as [err | [|]]; cbn [negb snd]; try reflexivity.
    destruct (camera D) as [err | [| [| uri rest]]]; reflexivity.
  - unfold pickFromGallery.
    destruct (library_permission D) as [err | [|]]; cbn [negb snd]; try reflexivity.
    destruct (library D) as [err | [| [| uri rest]]]; reflexivity.
  - unfold submit. destruct (no_photo s); reflexivity.
Qed.

Lemma fold_handle_photo (presses : list press) (s : page) :
  photoUri (fold_left (handle P) presses s) =
  fold_left (fun acc e => match chosen e with Some u => Some u | None => acc end) presses (photoUri s).
Proof.
  revert s. induction presses as [| e presses IH]; intro s; cbn [fold_left]; [reflexivity |].
  rewrite IH, handle_photo. reflexivity.
Qed.

(** The alerts a press adds. *)
Lemma handle_alerts (s : page) (e : press) (a : string * string) :
  In a (alerts (handle P s e)) ->
  In a (alerts s) \/
  (fst a = "Permission needed" /\ e <> PressSubmit) \/
  (a = ("No photo", "Please take a photo first.") /\ e = PressSubmit /\ no_photo s = true) \/
  (a = ("Submitted", "Photo submitted successfully!") /\ e = PressSubmit /\ no_photo s = false).
Proof.
  destruct e as [D | D |]; cbn [handle].
  - unfold takePhoto.
    destruct (camera_permission D) as [err | [|]]; cbn [negb snd alerts asked]; auto.
    + destruct (camera D) as [err | [| [| uri rest]]]; cbn [snd alerts asked setPhotoUri]; auto.
    + intro H. apply in_app_or in H as [H | [<- | []]]; [left; exact H |].
      right. left. split; [reflexivity | discriminate].
  - unfold pickFromGallery.
    destruct (library_permission D) as [err | [|]]; cbn [negb snd alerts asked]; auto.
    + destruct (library D) as [err | [| [| uri rest]]]; cbn [snd alerts asked setPhotoUri]; auto.
    + intro H. apply in_app_or in H as [H | [<- | []]]; [left; exact H |].
      right. left. split; [reflexivity | discriminate].
  - unfold submit. destruct (no_photo s) eqn:E; cbn [alerts Alert_alert];
      intro H; apply in_app_or in H as [H | [<- | []]]; auto 6.
Qed.

Lemma last_chosen_In (presses : list press) (u : string) :
  last_chosen presses = Some u -> exists e, In e presses /\ chosen e = Some u.
Proof.
  unfold last_chosen. induction presses as [| e presses IH] using rev_ind; [discriminate |].
  rewrite fold_left_app. cbn [fold_left].
  destruct (chosen e) as [u' |] eqn:E.
  - intro H. injection H as <-. exists e. split; [apply in_or_app; right; left; reflexivity | exact E].
  - intro H. destruct (IH H) as (e' & Hin & He'). exists e'. split; [apply in_or_app; left |]; assumption.
Qed.

End PageSession.

(** X24.  After any sequence of presses on the photo page, the photo shown
    is the one of the latest press that reached [setPhotoUri] (permission
    granted, picker not canceled, at least one asset: the first asset), and
    there is none when no press did: a refusal, a cancellation or a failure
    never clears or replaces the photo. *)
Theorem photo_is_the_last_one_chosen (P : platform) (presses : list press) :
  photoUri (session P presses) = last_chosen presses.
Proof. unfold session, last_chosen. apply fold_handle_photo. Qed.

(** X25.  The alert "Submitted" is only ever raised by a press on Submit
    that comes after a photo with a non-empty uri was chosen. *)
Theorem submitted_only_with_a_photo (P : platform) (presses : list press) :
  In ("Submitted", "Photo submitted successfully!") (alerts (session P presses)) ->
  exists before after uri,
    presses = before ++ PressSubmit :: after /\
    last_chosen before = Some uri /\ uri <> "".
Proof.
  unfold session. induction presses as [| e presses IH] using rev_ind; [contradiction |].
  rewrite fold_left_app. cbn [fold_left]. intro H.
  apply handle_alerts in H as [H | [[H _] | [[H _] | (_ & He & Hn)]]];
    [| cbn in H; discriminate | discriminate | subst e].
  - destruct (IH H) as (before & after & uri & -> & Hc & Hu).
    exists before, (after ++ [e]), uri. split; [| split; assumption].
    rewrite <- app_assoc. reflexivity.
  - unfold no_photo in Hn. rewrite fold_handle_photo in Hn.
    change (photoUri first_page) with (@None string) in Hn. fold (last_chosen presses) in Hn.
    destruct (last_chosen presses) as [uri |] eqn:E; [| discriminate].
    exists presses, [], uri. split; [reflexivity |]. split; [exact E |].
    intros ->. discriminate.
Qed.

Lemma submitted_only_with_a_photo_witness :
  exists before after uri,
    [PressSubmit; PressTakePhoto one_photo; PressPickFromGallery one_photo; PressSubmit] =
      before ++ PressSubmit :: after /\
    last_chosen before = Some uri /\ uri <> "".
Proof.
  apply (submitted_only_with_a_photo small_angle
           [PressSubmit; PressTakePhoto one_photo; PressPickFromGallery one_photo; PressSubmit]).
  vm_compute. tauto.
Defined.

(** X26.  [takePhoto] and [pickFromGallery] have no [catch]: each throws
    [e] exactly when the permission request rejects with [e], or the
    permission is granted and the picker rejects with [e] or returns a
    result that is not canceled and has no asset ([e] is the engine's
    TypeError); and a run that throws leaves the photo and the alerts as
    they were. *)
Theorem photo_handlers_throw_exactly (P : platform) (D : device) (s : page) (e : value) :
  (fst (takePhoto P D s) = Thrown e <->
   camera_permission D = Rejects e \/
   (camera_permission D = Resolves true /\
    (camera D = Rejects e \/ (camera D = Resolves (Picked []) /\ e = TypeError P ReadOfNullish)))) /\
  (fst (pickFromGallery P D s) = Thrown e <->
   library_permission D = Rejects e \/
   (library_permission D = Resolves true /\
    (library D = Rejects e \/ (library D = Resolves (Picked []) /\ e = TypeError P ReadOfNullish)))) /\
  (forall e', fst (takePhoto P D s) = Thrown e' ->
     photoUri (snd (takePhoto P D s)) = photoUri s /\ alerts (snd (takePhoto P D s)) = alerts s) /\
  (forall e', fst (pickFromGallery P D s) = Thrown e' ->
     photoUri (snd (pickFromGallery P D s)) = photoUri s /\
     alerts (snd (pickFromGallery P D s)) = alerts s).
Proof.
  unfold takePhoto, pickFromGallery.
  split; [| split; [| split]].
  - destruct (camera_permission D) as [err | [|]]; cbn [negb fst].
    + split; [intro H; injection H as ->; left; reflexivity |].
      intros [H | [H _]]; [injection H as -> | discriminate]. reflexivity.
    + destruct (camera D) as [err | [| [| uri rest]]]; cbn [fst]; split;
        try (intros [H | (_ & [H | [H _]])]; discriminate); try discriminate.
      * intro H. injection H as ->. right. split; [reflexivity | left; reflexivity].
      * intros [H | (_ & [H | [H _]])]; try discriminate. injection H as ->. reflexivity.
      * intro H. injection H as <-. right. split; [reflexivity | right; split; reflexivity].
      * intros [H | (_ & [H | [_ ->]])]; try discriminate. reflexivity.
    + split; [discriminate |]. intros [H | [H _]]; discriminate.
  - destruct (library_permission D) as [err | [|]]; cbn [negb fst].
    + split; [intro H; injection H as ->; left; reflexivity |].
      intros [H | [H _]]; [injection H as -> | discriminate]. reflexivity.
    + destruct (library D) as [err | [| [| uri rest]]]; cbn [fst]; split;
        try (intros [H | (_ & [H | [H _]])]; discriminate); try discriminate.
      * intro H. injection H as ->. right. split; [reflexivity | left; reflexivity].
      * intros [H | (_ & [H | [H _]])]; try discriminate. injection H as ->. reflexivity.
      * intro H. injection H as <-. right. split; [reflexivity | right; split; reflexivity].
      * intros [H | (_ & [H | [_ ->]])]; try discriminate. reflexivity.
    + split; [discriminate |]. intros [H | [H _]]; discriminate.
  - intro e'. destruct (camera_permission D) as [err | [|]]; cbn [negb fst snd];
      try (intros _; split; reflexivity); try discriminate.
    destruct (camera D) as [err | [| [| uri rest]]]; cbn [fst snd];
      try (intros _; split; reflexivity); discriminate.
  - intro e'. destruct (library_permission D) as [err | [|]]; cbn [negb fst snd];
      try (intros _; split; reflexivity); try discriminate.
    destruct (library D) as [err | [| [| uri rest]]]; cbn [fst snd];
      try (intros _; split; reflexivity); discriminate.
Qed.
